(** * interact.js: the [interact] facade and the reflow engine

    The facade ([interact], [use], the [unset] listener) is embedded from
    packages/interact/interact.js.  The collaborators it calls that live in
    other packages of the repository ([scope.interactables.get/new],
    [Interaction.stop], the reflow engine of [@interactjs/reflow]) are
    modelled from the specification and are marked as such. *)

From stdpp Require Import base numbers list strings relations gmap.

Open Scope string_scope.
Open Scope list_scope.
Open Scope Z_scope.

(** ** JavaScript arrays *)

(** Objects are compared by identity ([===]); an object is represented by
    its reference, the index of its record in the store of its class. *)
Abbreviation ref := nat (only parsing).

Section Arrays.
Context {A : Type} `{EqDecision A}.

(** [Array.prototype.indexOf]: the first index holding [x], or [-1]. *)
Fixpoint indexOf (x : A) (l : list A) : Z :=
  match l with
  | [] => -1
  | y :: l' =>
      if decide (y = x) then 0
      else let r := indexOf x l' in if decide (r = -1) then -1 else r + 1
  end.

(** [array.splice(start, 1)]: a negative [start] counts from the end
    (clamped at 0), a [start] beyond the end removes nothing. *)
Definition splice1 (start : Z) (l : list A) : list A :=
  let len := Z.of_nat (length l) in
  let s := if decide (start < 0) then Z.max (len + start) 0 else Z.min start len in
  delete (Z.to_nat s) l.

(** [array.push(x)] *)
Definition push (x : A) (l : list A) : list A := l ++ [x].

(** [array.includes(x)] *)
Definition includes (x : A) (l : list A) : bool := bool_decide (x ∈ l).

(** Removal of the first occurrence of [x], nothing when [x] is absent. *)
Fixpoint arr_remove (x : A) (l : list A) : list A :=
  match l with
  | [] => []
  | y :: l' => if decide (y = x) then l' else y :: arr_remove x l'
  end.
End Arrays.

(** ** Data model *)

(** Coordinates are whole numbers of pixels. *)
Record Point := mkPoint { px : Z; py : Z }.

(** What a measurement callback returns: [{top, left, bottom, right}]. *)
Record Rect := mkRect { top : Z; left : Z; bottom : Z; right : Z }.

#[global] Instance Point_eq_dec : EqDecision Point.
Proof. solve_decision. Defined.

(** The target of an interactable: a CSS selector or an element. *)
Inductive Target :=
| Selector (sel : string)
| Element (node : ref).

#[global] Instance Target_eq_dec : EqDecision Target.
Proof. solve_decision. Defined.

(** The [options] argument of [interact]; only [context] matters here. *)
Record Options := mkOptions { context : option ref }.

(** [options && options.context] *)
Definition options_context (options : option Options) : option ref :=
  match options with
  | Some o => context o
  | None => None
  end.

(** The module-level [globalEvents] object; an interactable either holds a
    reference to it in [events.global] or does not. *)
Inductive GlobalRef := globalEvents.

(** Modelled from the spec: the Interactable of [@interactjs/core], which is
    not part of the sources: its target, its context, and the rectangle its
    [rectChecker] returns ([None] when no callback is configured).
    [events_global] is the field [events.global] that [interact] assigns. *)
Record Interactable := mkInteractable {
  target : Target;
  _context : option ref;
  rectChecker : option Rect;          (* what the measurement callback returns *)
  events_global : option GlobalRef;
}.

(** Modelled from the spec: the states of the synthetic interaction of a
    reflow (section 4.1, state machine). *)
Inductive Phase := CREATED | REFLOWED | STARTED | MOVED | ENDING | ENDED.

#[global] Instance Phase_eq_dec : EqDecision Phase.
Proof. solve_decision. Defined.

(** Modelled from the spec: the completion handle of a reflow.  A pending
    handle already knows the value it will resolve to (the continuation
    closes over the interactable). *)
Inductive Promise :=
| NoPromise
| Pending (value : ref)
| Resolved (value : ref).

(** Modelled from the spec: the Interaction of [@interactjs/core], which is
    not part of the sources (section 3), with the three members the
    listener of [unset] in interact.js reads: [interactable],
    [interacting()] and [_ending]. *)
Record Interaction := mkInteraction {
  interactable : option ref;          (* interaction.interactable, null as None *)
  prepared_name : string;
  startCoords_page : Point;
  prevCoords_page : Point;
  curCoords_page : Point;
  pointers : list nat;
  pointerIsDown : bool;
  _interacting : bool;                (* the result of interacting() *)
  _ending : bool;
  phase : Phase;
  promise : Promise;
}.

(** Modelled from the spec: a synthesized event handed to
    [interactable.fire]; the tests read [type], [interaction] and
    [delta]. *)
Record Event := mkEvent {
  type : string;
  interaction : ref;
  delta : option Point;
}.

(** A callback parked on a zero-delay timer, as the blocking handler of
    test('async reflow') parks one. *)
Inductive Task :=
| TStop (i : ref).                    (* () => interaction.stop() *)

(** What a signal handler returns. *)
Inductive RetVal :=
| RUndefined
| RBool (b : bool)
| ROther.

(** Modelled from the spec: the effect of one run of a signal handler on
    [{ interaction }]: it may assign [interaction.curCoords.page], park
    callbacks on timers, and it returns a value.  A handler sees the
    interaction object (its reference and its state). *)
Record HandlerResult := mkHandlerResult {
  h_curPage : option Point;
  h_timers : list Task;
  h_ret : RetVal;
}.

Definition Handler := ref -> Interaction -> HandlerResult.

(** The [scope] object. *)
Record Scope := mkScope {
  interactables_list : list ref;                (* scope.interactables.list *)
  interactions_list : list ref;                 (* scope.interactions.list *)
  actions_names : list string;                  (* scope.actions.names *)
  before_action_move : list Handler;            (* scope.interactions.signals *)
  before_action_end : list Handler;
  _plugins : list ref;                          (* scope._plugins *)
}.

(** Observations recorded along a run. *)
Inductive Entry :=
| Installed (plugin : ref)                      (* plugin.install(scope) ran *)
| Stopped (i : ref)                             (* interaction.stop() ran *)
| Emitted (channel : string) (i : ref)          (* a signal went over the bus *)
| Fired (ia : ref) (ev : Event).                (* interactable.fire(ev) ran *)

Record World := mkWorld {
  scope : Scope;
  interactables : list Interactable;            (* every Interactable object *)
  interactions : list Interaction;              (* every Interaction object *)
  timers : list Task;                           (* parked timer callbacks *)
  log : list Entry;
}.

Definition set_scope (f : Scope -> Scope) (w : World) : World :=
  mkWorld (f (scope w)) (interactables w) (interactions w) (timers w) (log w).

Definition set_interactables_list (l : list ref) (s : Scope) : Scope :=
  mkScope l (interactions_list s) (actions_names s)
          (before_action_move s) (before_action_end s) (_plugins s).

Definition set_interactions_list (l : list ref) (s : Scope) : Scope :=
  mkScope (interactables_list s) l (actions_names s)
          (before_action_move s) (before_action_end s) (_plugins s).

Definition set_plugins (l : list ref) (s : Scope) : Scope :=
  mkScope (interactables_list s) (interactions_list s) (actions_names s)
          (before_action_move s) (before_action_end s) l.

Definition add_log (e : Entry) (w : World) : World :=
  mkWorld (scope w) (interactables w) (interactions w) (timers w) (log w ++ [e]).

Definition add_timers (ts : list Task) (w : World) : World :=
  mkWorld (scope w) (interactables w) (interactions w) (timers w ++ ts) (log w).

Definition set_interaction (i : ref) (it : Interaction) (w : World) : World :=
  mkWorld (scope w) (interactables w) (<[i:=it]> (interactions w)) (timers w) (log w).

(** The events an interactable's [fire] sink received, oldest first. *)
Fixpoint fired (ia : ref) (l : list Entry) : list Event :=
  match l with
  | [] => []
  | Fired ia' ev :: l' => if decide (ia' = ia) then ev :: fired ia l' else fired ia l'
  | _ :: l' => fired ia l'
  end.

(** The interactions [stop()] was called on, oldest first. *)
Fixpoint stopped (l : list Entry) : list ref :=
  match l with
  | [] => []
  | Stopped i :: l' => i :: stopped l'
  | _ :: l' => stopped l'
  end.

(** The plugins whose [install] was called, oldest first. *)
Fixpoint installed (l : list Entry) : list ref :=
  match l with
  | [] => []
  | Installed p :: l' => p :: installed l'
  | _ :: l' => installed l'
  end.

(** ** Updates of an [Interaction] object *)

Definition set_curCoords_page (p : Point) (it : Interaction) : Interaction :=
  mkInteraction (interactable it) (prepared_name it) (startCoords_page it)
    (prevCoords_page it) p (pointers it) (pointerIsDown it)
    (_interacting it) (_ending it) (phase it) (promise it).

Definition set_prevCoords_page (p : Point) (it : Interaction) : Interaction :=
  mkInteraction (interactable it) (prepared_name it) (startCoords_page it)
    p (curCoords_page it) (pointers it) (pointerIsDown it)
    (_interacting it) (_ending it) (phase it) (promise it).

Definition set_phase (ph : Phase) (it : Interaction) : Interaction :=
  mkInteraction (interactable it) (prepared_name it) (startCoords_page it)
    (prevCoords_page it) (curCoords_page it) (pointers it) (pointerIsDown it)
    (_interacting it) (_ending it) ph (promise it).

Definition set_interacting (b : bool) (it : Interaction) : Interaction :=
  mkInteraction (interactable it) (prepared_name it) (startCoords_page it)
    (prevCoords_page it) (curCoords_page it) (pointers it) (pointerIsDown it)
    b (_ending it) (phase it) (promise it).

(** Modelled from the spec: step 5 of the reflow engine,
    [pointerIsDown = false] and the pointer taken off the list. *)
Definition lift_pointers (it : Interaction) : Interaction :=
  mkInteraction (interactable it) (prepared_name it) (startCoords_page it)
    (prevCoords_page it) (curCoords_page it) [] false
    (_interacting it) (_ending it) (phase it) (promise it).

(** Modelled from the spec: a handle is resolved once; a resolved or absent
    handle stays as it is. *)
Definition resolve (p : Promise) : Promise :=
  match p with
  | Pending v => Resolved v
  | _ => p
  end.

Definition set_promise (p : Promise) (it : Interaction) : Interaction :=
  mkInteraction (interactable it) (prepared_name it) (startCoords_page it)
    (prevCoords_page it) (curCoords_page it) (pointers it) (pointerIsDown it)
    (_interacting it) (_ending it) (phase it) p.

Definition update_interaction (i : ref) (f : Interaction -> Interaction)
    (w : World) : World :=
  match interactions w !! i with
  | Some it => set_interaction i (f it) w
  | None => w
  end.

(** [interaction.interacting()] on a reference. *)
Definition interacting (i : ref) (w : World) : bool :=
  match interactions w !! i with
  | Some it => _interacting it
  | None => false
  end.

(** The state of the completion handle owned by interaction [i]. *)
Definition promise_of (i : ref) (w : World) : Promise :=
  match interactions w !! i with
  | Some it => promise it
  | None => NoPromise
  end.

(** ** Signal bus *)

(** Modelled from the spec: the veto sentinel of the signal bus is the
    value [false] and nothing else. *)
Definition is_veto (r : RetVal) : bool :=
  match r with
  | RBool false => true
  | _ => false
  end.

Definition apply_curPage (o : option Point) (it : Interaction) : Interaction :=
  match o with
  | Some p => set_curCoords_page p it
  | None => it
  end.

(** Modelled from the spec: one handler of the signal bus runs on the
    interaction as the handlers before it left it; its timers are parked
    behind the earlier ones. *)
Definition run_handler (i : ref) (acc : Interaction * list Task * bool)
    (h : Handler) : Interaction * list Task * bool :=
  let '(it, ts, veto) := acc in
  let r := h i it in
  (apply_curPage (h_curPage r) it, ts ++ h_timers r, veto || is_veto (h_ret r)).

Definition run_handlers (i : ref) (hs : list Handler) (it : Interaction)
    : Interaction * list Task * bool :=
  foldl (run_handler i) (it, [], false) hs.

(** Modelled from the spec: the emission of a signal by the bus of
    [@interactjs/utils/Signals], which is not part of the sources.  Every
    handler of the channel runs, in registration order, synchronously, on
    [{ interaction }]; the result tells whether any of them returned the
    veto sentinel. *)
Definition signals_fire (channel : string) (hs : list Handler) (i : ref)
    (w : World) : World * bool :=
  let w0 := add_log (Emitted channel i) w in
  match interactions w0 !! i with
  | Some it =>
      let '(it', ts, veto) := run_handlers i hs it in
      (add_timers ts (set_interaction i it' w0), veto)
  | None => (w0, false)
  end.

(** ** Firing events and ending an interaction *)

(** [interactable.fire(event)] *)
Definition fire (ia : ref) (ev : Event) (w : World) : World :=
  add_log (Fired ia ev) w.

(** Modelled from the spec: the event [<name><phase>] of interaction [i]
    goes to the sink of the interactable the interaction is bound to. *)
Definition fire_phase (i : ref) (ph : string) (d : option Point) (w : World) : World :=
  match interactions w !! i with
  | Some it =>
      match interactable it with
      | Some ia => fire ia (mkEvent (prepared_name it +:+ ph) i d) w
      | None => w
      end
  | None => w
  end.

(** Modelled from the spec: the interaction in its terminal state. *)
Definition ended (it : Interaction) : Interaction :=
  set_promise (resolve (promise it)) (set_phase ENDED (set_interacting false it)).

(** Modelled from the spec: the end of the sequence (step 7 of the reflow
    engine, and the [ENDING -> ENDED] transition): the end event is
    emitted (when [fire_end]), the interaction leaves
    [scope.interactions.list], is no longer interacting, and its
    completion handle is resolved. *)
Definition finalize (fire_end : bool) (i : ref) (w : World) : World :=
  let w1 := if fire_end then fire_phase i "end" None w else w in
  set_scope (fun s => set_interactions_list (arr_remove i (interactions_list s)) s)
            (update_interaction i ended w1).

Section Stop.
(** The spec has [stop()] emit the end event of a blocked reflow once it
    is released; the documentation of [interact.stop] in interact.js says
    that end events are not fired when interactions are stopped.  The
    flag selects between the two. *)
Variable stopFiresEnd : bool.

(** Modelled from the spec: [Interaction.prototype.stop] of
    [@interactjs/core/Interaction], which is not part of the sources.
    Stopping an interaction that is interacting terminates it as
    [finalize] does; stopping one that is not interacting changes
    nothing. *)
Definition interaction_stop (i : ref) (w : World) : World :=
  let w0 := add_log (Stopped i) w in
  if interacting i w0 then finalize stopFiresEnd i w0 else w0.

(** A zero-delay timer comes due: its callback, the oldest one parked,
    runs on an empty stack. *)
Definition run_timer (w : World) : World :=
  match timers w with
  | [] => w
  | TStop i :: ts =>
      interaction_stop i
        (mkWorld (scope w) (interactables w) (interactions w) ts (log w))
  end.

(** *** interact.js: the listener of the [unset] signal *)

(** [interaction.interactable === interactable && interaction.interacting()
     && interaction._ending] *)
Definition unset_guard (ia : ref) (it : Interaction) : bool :=
  bool_decide (interactable it = Some ia) && _interacting it && _ending it.

(** The [for ... of] loop over [scope.interactions.list]: the array
    iterator reads the live array at index [k] on every round, and is done
    once [k] is past its end.  [None] is a loop cut short by [fuel]. *)
Fixpoint unset_loop (fuel : nat) (ia : ref) (k : nat) (w : World) : option World :=
  match interactions_list (scope w) !! k with
  | None => Some w
  | Some i =>
      match fuel with
      | O => None
      | S fuel' =>
          let w' :=
            match interactions w !! i with
            | Some it => if unset_guard ia it then interaction_stop i w else w
            | None => w
            end in
          unset_loop fuel' ia (S k) w'
      end
  end.

(** [scope.interactables.signals.on('unset', ({ interactable }) => ...)] *)
Definition on_unset (ia : ref) (w : World) : option World :=
  let l := interactables_list (scope w) in
  let w1 := set_scope (set_interactables_list (splice1 (indexOf ia l) l)) w in
  unset_loop (length (interactions_list (scope w1))) ia 0 w1.
End Stop.

(** ** interact.js: the facade *)

(** Modelled from the spec: the key of the lookup of an interactable, its
    target and its context. *)
Definition matches (t : Target) (c : option ref) (w : World) (r : ref) : bool :=
  match interactables w !! r with
  | Some ia => bool_decide (target ia = t) && bool_decide (_context ia = c)
  | None => false
  end.

(** Modelled from the spec: [scope.interactables.get] of
    [@interactjs/core/scope], which is not part of the sources: the lookup
    of the interactable of the list by target and context. *)
Definition interactables_get (t : Target) (options : option Options)
    (w : World) : option ref :=
  find (matches t (options_context options) w) (interactables_list (scope w)).

(** Modelled from the spec: [scope.interactables.new] of
    [@interactjs/core/scope], which is not part of the sources: a new
    Interactable object for the target and context, added to the list. *)
Definition interactables_new (t : Target) (options : option Options)
    (w : World) : World * ref :=
  let r := length (interactables w) in
  let ia := mkInteractable t (options_context options) None None in
  (mkWorld
     (set_interactables_list (push r (interactables_list (scope w))) (scope w))
     (interactables w ++ [ia]) (interactions w) (timers w) (log w),
   r).

(** [interactable.events.global = globalEvents] *)
Definition set_events_global (r : ref) (w : World) : World :=
  match interactables w !! r with
  | Some ia =>
      mkWorld (scope w)
        (<[r := mkInteractable (target ia) (_context ia) (rectChecker ia)
                  (Some globalEvents)]> (interactables w))
        (interactions w) (timers w) (log w)
  | None => w
  end.

(** [interact(target, options)] *)
Definition interact (t : Target) (options : option Options) (w : World)
    : World * ref :=
  match interactables_get t options w with
  | Some ia => (w, ia)
  | None =>
      let '(w1, ia) := interactables_new t options w in
      (set_events_global ia w1, ia)
  end.

Section Plugins.
(** What [plugin.install(scope)] does to the scope it receives. *)
Variable install : ref -> Scope -> Scope.

(** [interact.use(plugin)]; its result is always [interact] itself. *)
Definition use (plugin : ref) (w : World) : World :=
  if decide (indexOf plugin (_plugins (scope w)) ≠ -1) then w
  else
    let w1 := set_scope (install plugin) (add_log (Installed plugin) w) in
    set_scope (fun s => set_plugins (push plugin (_plugins s)) s) w1.

(** A run of calls [interact.use(p)], in order. *)
Definition use_all (ps : list ref) (w : World) : World :=
  foldl (fun w p => use p w) w ps.
End Plugins.

(** ** The reflow engine *)

(** Modelled from the spec: the error taxonomy of section 7. *)
Inductive Error :=
| InvalidActionName
| MeasurementUnavailable.

(** Modelled from the spec: what [interactable.reflow(...)] hands back, a
    rejection, or the completion handle owned by the synthetic interaction
    it created. *)
Inductive ReflowResult :=
| Rejected (e : Error)
| Handle (i : ref).

(** The identifier of the one synthetic pointer of a reflow. *)
Definition synthetic_pointer : nat := 0%nat.

(** Modelled from the spec: the rectangle the measurement callback of the
    interactable returns, if it has one. *)
Definition measure (ia : ref) (w : World) : option Rect :=
  match interactables w !! ia with
  | Some o => rectChecker o
  | None => None
  end.

(** Modelled from the spec: step 1 of the reflow engine, the synthetic
    interaction, bound to the interactable, starts at the top-left corner
    of the rectangle with its pointer down. *)
Definition new_interaction (ia : ref) (name : string) (rect : Rect) : Interaction :=
  let p := mkPoint (left rect) (top rect) in
  mkInteraction (Some ia) name p p p [synthetic_pointer] true
    false false CREATED (Pending ia).

(** Modelled from the spec: the new interaction object is pushed on
    [scope.interactions.list]. *)
Definition create_interaction (ia : ref) (name : string) (rect : Rect)
    (w : World) : World :=
  let i := length (interactions w) in
  mkWorld
    (set_interactions_list (push i (interactions_list (scope w))) (scope w))
    (interactables w) (interactions w ++ [new_interaction ia name rect])
    (timers w) (log w).

Definition point_sub (a b : Point) : Point :=
  mkPoint (px a - px b) (py a - py b).

(** Modelled from the spec: step 4 of the reflow engine, the move event
    carries [curCoords.page - prevCoords.page]; the current coordinates are
    the previous ones of the next tick. *)
Definition action_move (i : ref) (w : World) : World :=
  match interactions w !! i with
  | Some it =>
      let d := point_sub (curCoords_page it) (prevCoords_page it) in
      update_interaction i
        (fun it => set_phase MOVED (set_prevCoords_page (curCoords_page it) it))
        (fire_phase i "move" (Some d) w)
  | None => w
  end.

(** Modelled from the spec: [Interactable.prototype.reflow] of
    [@interactjs/reflow], which is not part of the sources (section 4.1,
    steps 1 to 7). *)
Definition reflow (ia : ref) (name : string) (w : World) : World * ReflowResult :=
  if negb (includes name (actions_names (scope w))) then
    (w, Rejected InvalidActionName)
  else
    match measure ia w with
    | None => (w, Rejected MeasurementUnavailable)
    | Some rect =>
        let i := length (interactions w) in
        (* 1 *)
        let w1 := create_interaction ia name rect w in
        (* 2 *)
        let w2 := update_interaction i (set_phase REFLOWED)
                    (fire_phase i "reflow" None w1) in
        (* 3 *)
        let w3 := update_interaction i
                    (fun it => set_phase STARTED (set_interacting true it))
                    (fire_phase i "start" None w2) in
        (* 4 *)
        let w4 := fst (signals_fire "before-action-move"
                         (before_action_move (scope w3)) i w3) in
        let w5 := action_move i w4 in
        (* 5 *)
        let w6 := update_interaction i lift_pointers w5 in
        (* 6 *)
        let '(w7, veto) :=
          signals_fire "before-action-end" (before_action_end (scope w6)) i
            (update_interaction i (set_phase ENDING) w6) in
        (* 7 *)
        if veto then (w7, Handle i) else (finalize true i w7, Handle i)
    end.

(** ** The course of a reflow *)

(** The synthetic interaction once the start event has been emitted. *)
Definition at_start (ia : ref) (name : string) (rect : Rect) : Interaction :=
  set_phase STARTED
    (set_interacting true (set_phase REFLOWED (new_interaction ia name rect))).

(** Where the [before-action-move] handlers leave [curCoords.page]. *)
Definition move_target (ia : ref) (name : string) (rect : Rect) (w : World) : Point :=
  curCoords_page
    (run_handlers (length (interactions w)) (before_action_move (scope w))
       (at_start ia name rect)).1.1.

(** The synthetic interaction when the [before-action-end] signal goes out. *)
Definition at_ending (ia : ref) (name : string) (rect : Rect) (w : World)
    : Interaction :=
  let c := move_target ia name rect w in
  set_phase ENDING
    (lift_pointers
       (set_phase MOVED
          (set_prevCoords_page c (set_curCoords_page c (at_start ia name rect))))).

(** Whether some [before-action-end] handler blocks the end. *)
Definition end_vetoed (ia : ref) (name : string) (rect : Rect) (w : World) : bool :=
  (run_handlers (length (interactions w)) (before_action_end (scope w))
     (at_ending ia name rect w)).2.


(** The plugins list is the record of the installs: one entry per call of
    [install], in order, and no plugin twice. *)
Definition plugins_inv (w : World) : Prop :=
  installed (log w) = _plugins (scope w) /\ NoDup (_plugins (scope w)).

(** ** Runs of the system *)


Definition on_before_action_end (h : Handler) (w : World) : World :=
  set_scope (fun s =>
    mkScope (interactables_list s) (interactions_list s) (actions_names s)
      (before_action_move s) (push h (before_action_end s)) (_plugins s)) w.


(** What [stop()] makes of an interaction object. *)
Definition stop_rec (it : Interaction) : Interaction :=
  if _interacting it then ended it else it.

(** From [w] to [w2] the log has grown by [l], no object has been lost, and
    the interaction [i] is as it was unless [stop()] has been called on it,
    in which case it is as [stop()] leaves it. *)
Definition evolves (i : ref) (w w2 : World) (l : list Entry) : Prop :=
  log w2 = log w ++ l /\
  (length (interactions w) <= length (interactions w2))%nat /\
  interactions w2 !! i =
    if decide (i ∈ stopped l) then stop_rec <$> interactions w !! i
    else interactions w !! i.

(** ** The scenarios of the test files *)

Module Scenario.

Definition rect : Rect := mkRect 100 200 300 400.

(** [scope.interactions.signals.on('before-action-move', ...)] of
    test('reflow'). *)
Definition steer : Handler := fun _ _ =>
  mkHandlerResult (Some (mkPoint (left rect + 100) (top rect - 50))) [] RUndefined.

(** The blocking handler of test('async reflow'). *)
Definition block_end : Handler := fun i _ =>
  mkHandlerResult None [TStop i] (RBool false).

Definition window : Interactable :=
  mkInteractable (Element 0%nat) None (Some rect) None.

(** The mock scope after [Object.assign(scope.actions, { names: ['test'] })]
    and [scope.interactables.new(win.window)], with the given handlers. *)
Definition world (mv en : list Handler) : World :=
  mkWorld (mkScope [0%nat] [] ["test"] mv en []) [window] [] [] [].

(** An interaction in progress on the interactable [0]. *)
Definition dragging (ending : bool) : Interaction :=
  mkInteraction (Some 0%nat) "drag" (mkPoint 0 0) (mkPoint 0 0) (mkPoint 0 0)
    [1%nat] true true ending STARTED NoPromise.

(** A scope with one interactable and the given interactions, all of them
    in [scope.interactions.list]. *)
Definition busy (its : list Interaction) : World :=
  mkWorld (mkScope [0%nat] (seq 0 (length its)) ["drag"] [] [] [])
          [window] its [] [].

(** The module as it is loaded: nothing in the scope, [scope._plugins = []]. *)
Definition loaded : World :=
  mkWorld (mkScope [] [] [] [] [] []) [] [] [] [].

End Scenario.

(** ** interact.js: the bookkeeping of the interactables *)

(** A run of calls [interact(target, options)], in order. *)
Definition interact_all (calls : list (Target * option Options)) (w : World) : World :=
  foldl (fun w c => (interact c.1 c.2 w).1) w calls.

(** The bookkeeping of the interactables is sound: the list holds no
    object twice, every entry is an object that exists, and no two entries
    have the same target and context. *)
Definition facade_inv (w : World) : Prop :=
  NoDup (interactables_list (scope w)) /\
  Forall (fun r => (r < length (interactables w))%nat) (interactables_list (scope w)) /\
  forall r1 r2 a1 a2,
    r1 ∈ interactables_list (scope w) -> r2 ∈ interactables_list (scope w) ->
    interactables w !! r1 = Some a1 -> interactables w !! r2 = Some a2 ->
    target a1 = target a2 -> _context a1 = _context a2 -> r1 = r2.

(** The plugins in the order of their first use, after those of [acc]. *)
Fixpoint first_uses (acc ps : list ref) : list ref :=
  match ps with
  | [] => acc
  | p :: ps' => first_uses (if decide (p ∈ acc) then acc else acc ++ [p]) ps'
  end.

(** ** interact.js: [on] and [off] *)

Module Events.

(** Strings are sequences of code units below 256. *)

(** The space, U+0020. *)
Definition space : Ascii.ascii := Ascii.ascii_of_nat 32.

(** [type.search(' ') !== -1] *)
Fixpoint has_space (s : string) : bool :=
  match s with
  | EmptyString => false
  | String a s' => if Ascii.eqb a space then true else has_space s'
  end.

(** The white space and line terminators that [String.prototype.trim]
    strips, among the code units below 256: tab, line feed, vertical tab,
    form feed, carriage return, space and no-break space. *)
Definition is_white (a : Ascii.ascii) : bool :=
  let n := Ascii.nat_of_ascii a in
  bool_decide (n ∈ [9; 10; 11; 12; 13; 32; 160]%nat).

Fixpoint trim_start (s : string) : string :=
  match s with
  | EmptyString => EmptyString
  | String a s' => if is_white a then trim_start s' else s
  end.

Fixpoint trim_end (s : string) : string :=
  match s with
  | EmptyString => EmptyString
  | String a s' =>
      match trim_end s' with
      | EmptyString => if is_white a then EmptyString else String a EmptyString
      | r => String a r
      end
  end.

(** [s.trim()] *)
Definition trim (s : string) : string := trim_end (trim_start s).

(** [s.split(/ +/)] with the piece in the making at the head of the result:
    [in_run] tells whether the code unit before was part of a run of
    spaces. *)
Fixpoint split_go (in_run : bool) (s : string) : list string :=
  match s with
  | EmptyString => [EmptyString]
  | String a s' =>
      if Ascii.eqb a space then
        if in_run then split_go true s' else EmptyString :: split_go true s'
      else
        match split_go false s' with
        | p :: ps => String a p :: ps
        | [] => [String a EmptyString]
        end
  end.

(** [s.split(/ +/)]: the pieces between the maximal runs of spaces. *)
Definition split_spaces (s : string) : list string := split_go false s.

Section OnOff.
(** The values of JavaScript that come as listeners and options, compared
    with [===]. *)
Context {JSVal : Type} `{EqDecision JSVal}.

(** The [type] argument of [on] and [off], by what [utils.is] makes of it:
    a string, an array with its elements, an object with its enumerable
    properties in the order of [for ... in], or any other value. *)
Inductive TypeArg :=
| TString (s : string)
| TArray (items : list TypeArg)
| TObject (props : list (string * JSVal))
| TOther (v : JSVal).

(** The event type that goes to [events.add] and [events.remove]. *)
Inductive DomType :=
| DString (s : string)
| DOther (v : JSVal).

(** The calls of [@interactjs/utils/events] on [scope.document]. *)
Inductive DomCall :=
| EventsAdd (type : DomType) (listener options : JSVal)
    (* events.add(scope.document, type, listener, { options }) *)
| EventsRemove (type : DomType) (listener options : JSVal).
    (* events.remove(scope.document, type, listener, options) *)

(** The own properties of the module-level object [globalEvents], each an
    array of listeners, and the calls made on the document, oldest
    first. *)
Record Registry := mkRegistry {
  globalEvents : gmap string (list JSVal);
  document_calls : list DomCall;
}.

(** A call returns, or throws a TypeError; what it has done to the registry
    before stays done. *)
Inductive Outcome :=
| Returned (r : Registry)
| Thrown (r : Registry).

(** [scope.actions.eventTypes], an array of strings. *)
Variable eventTypes : list string.

(** The names of the properties that the empty object [globalEvents]
    inherits from [Object.prototype] ([constructor], [toString], ...): each
    is a function or an object, none is an array. *)
Variable inherited : string -> bool.

Definition add_call (c : DomCall) (r : Registry) : Registry :=
  mkRegistry (globalEvents r) (document_calls r ++ [c]).

Definition set_listeners (type : string) (ls : list JSVal) (r : Registry) : Registry :=
  mkRegistry (<[type := ls]> (globalEvents r)) (document_calls r).

(** The first lines of [on] and of [off]: a string with a space in it is
    made the array of its pieces. *)
Definition normalize (type : TypeArg) : TypeArg :=
  match type with
  | TString s =>
      if has_space s then TArray (map TString (split_spaces (trim s))) else type
  | _ => type
  end.

(** A loop over an array or over the properties of an object: a round that
    throws ends it. *)
Fixpoint for_each {A} (f : A -> Registry -> option Outcome) (l : list A)
    (r : Registry) : option Outcome :=
  match l with
  | [] => Some (Returned r)
  | x :: l' =>
      match f x r with
      | Some (Returned r') => for_each f l' r'
      | other => other
      end
  end.

(** The last part of [on], for a string without a space.  For an
    InteractEvent type, [globalEvents[type]] is the array of the own
    property, or else what is inherited, which is not falsy and has no
    [push], or else [undefined]. *)
Definition on_one (type : string) (listener options : JSVal) (r : Registry) : Outcome :=
  if includes type eventTypes then
    match globalEvents r !! type with
    | Some ls => Returned (set_listeners type (push listener ls) r)
    | None =>
        if inherited type then Thrown r
        else Returned (set_listeners type [listener] r)
    end
  else Returned (add_call (EventsAdd (DString type) listener options) r).

(** [interact.on(type, listener, options)]; [None] is a call cut short by
    [fuel]. *)
Fixpoint on (fuel : nat) (type : TypeArg) (listener options : JSVal)
    (r : Registry) : option Outcome :=
  match fuel with
  | O => None
  | S fuel' =>
      match normalize type with
      | TArray items =>
          for_each (fun eventType => on fuel' eventType listener options) items r
      | TObject props =>
          for_each (fun p => on fuel' (TString p.1) p.2 listener) props r
      | TString s => Some (on_one s listener options r)
      | TOther v => Some (Returned (add_call (EventsAdd (DOther v) listener options) r))
      end
  end.

(** The last part of [off], for a string without a space.  [type in
    globalEvents] holds for own and for inherited properties; what is
    inherited has no [indexOf]. *)
Definition off_one (type : string) (listener options : JSVal) (r : Registry) : Outcome :=
  if negb (includes type eventTypes) then
    Returned (add_call (EventsRemove (DString type) listener options) r)
  else
    match globalEvents r !! type with
    | Some ls =>
        let index := indexOf listener ls in
        if decide (index ≠ -1) then Returned (set_listeners type (splice1 index ls) r)
        else Returned r
    | None => if inherited type then Thrown r else Returned r
    end.

(** [interact.off(type, listener, options)] *)
Fixpoint off (fuel : nat) (type : TypeArg) (listener options : JSVal)
    (r : Registry) : option Outcome :=
  match fuel with
  | O => None
  | S fuel' =>
      match normalize type with
      | TArray items =>
          for_each (fun eventType => off fuel' eventType listener options) items r
      | TObject props =>
          for_each (fun p => off fuel' (TString p.1) p.2 listener) props r
      | TString s => Some (off_one s listener options r)
      | TOther v =>
          Some (Returned (add_call (EventsRemove (DOther v) listener options) r))
      end
  end.

(** One call after the other for the types of a list, until one throws. *)
Fixpoint each_type (f : string -> Registry -> Outcome) (ts : list string)
    (r : Registry) : Outcome :=
  match ts with
  | [] => Returned r
  | t :: ts' =>
      match f t r with
      | Returned r' => each_type f ts' r'
      | Thrown r' => Thrown r'
      end
  end.

(** The registry an outcome leaves. *)
Definition registry_of (o : Outcome) : Registry :=
  match o with
  | Returned r => r
  | Thrown r => r
  end.

(** The listeners registered for a type; none when there is no array. *)
Definition listeners (type : string) (r : Registry) : list JSVal :=
  default [] (globalEvents r !! type).
End OnOff.

Arguments TypeArg : clear implicits.
Arguments DomType : clear implicits.
Arguments DomCall : clear implicits.
Arguments Registry : clear implicits.
Arguments Outcome : clear implicits.

(** A name of an event type: not empty and free of white space. *)
Definition type_name (t : string) : Prop :=
  t <> EmptyString /\ forall a, In a (String.list_ascii_of_string t) -> is_white a = false.

End Events.

(** How deep the calls of [on] and [off] go for a [type]: a string may be
    made an array of strings first, the properties of an object are such
    strings. *)
Fixpoint type_depth {JSVal : Type} (type : Events.TypeArg JSVal) : nat :=
  match type with
  | Events.TString _ => 2
  | Events.TArray items => S (foldr (fun x acc => Nat.max (type_depth x) acc) 0%nat items)
  | Events.TObject _ => 3
  | Events.TOther _ => 1
  end.

(** From [r] to [r'] no listener is lost: every array of listeners is
    still there with what it held in front, and every call on the document
    is still on record. *)
Definition listeners_kept {JSVal : Type} (r r' : Events.Registry JSVal) : Prop :=
  (forall t ls, Events.globalEvents r !! t = Some ls ->
     exists ls', Events.globalEvents r' !! t = Some (ls ++ ls')) /\
  exists cs, Events.document_calls r' = Events.document_calls r ++ cs.

(** From [r] to [r'] no listener is gained: the types that have an array
    are the same, and each array holds a part of what it held, in the same
    order. *)
Definition listeners_thinned {JSVal : Type} (r r' : Events.Registry JSVal) : Prop :=
  (forall t,
     match Events.globalEvents r !! t with
     | Some ls => exists ls', Events.globalEvents r' !! t = Some ls' /\ sublist ls' ls
     | None => Events.globalEvents r' !! t = None
     end) /\
  exists cs, Events.document_calls r' = Events.document_calls r ++ cs.

(** ** interact.js: [stop] *)

Section FacadeStop.
(** What the method [interaction.stop()] of an interaction does to the
    world; [interaction_stop] above is one such method. *)
Variable stop_method : ref -> World -> World.

(** The [for ... of] loop of [interact.stop] over
    [scope.interactions.list], read afresh at index [k] on every round,
    with the interactions [stop()] has been called on so far, oldest
    first.  [None] is a loop cut short by [fuel]. *)
Fixpoint stop_loop (fuel : nat) (k : nat) (w : World) (calls : list ref)
    : option (World * list ref) :=
  match interactions_list (scope w) !! k with
  | None => Some (w, calls)
  | Some i =>
      match fuel with
      | O => None
      | S fuel' => stop_loop fuel' (S k) (stop_method i w) (calls ++ [i])
      end
  end.

(** [interact.stop()] *)
Definition stop (fuel : nat) (w : World) : option (World * list ref) :=
  stop_loop fuel 0 w [].
End FacadeStop.

(** The entries of a list at the places 0, 2, 4, ... *)
Fixpoint evens {A} (l : list A) : list A :=
  match l with
  | [] => []
  | x :: l' =>
      x :: match l' with
           | [] => []
           | _ :: l'' => evens l''
           end
  end.

(** The entries of a list at the places 1, 3, 5, ... *)
Definition odds {A} (l : list A) : list A :=
  match l with
  | [] => []
  | _ :: l' => evens l'
  end.

(** ** Scenarios for [use] *)

Module PluginScenario.

(** A plugin whose [install(scope)] does [scope._plugins.push(this)]. *)
Definition push_self (p : ref) (s : Scope) : Scope :=
  set_plugins (push p (_plugins s)) s.

(** Plugin 5 empties the list, [scope._plugins.length = 0]; the [install]
    of the other plugins does nothing to the scope. *)
Definition reset_by_5 (p : ref) (s : Scope) : Scope :=
  if decide (p = 5%nat) then set_plugins [] s else s.

End PluginScenario.

(** ** Scenarios for [on], [off] and [stop] *)

Module EventScenario.

(** The InteractEvent types of a scope with a drag action, and with an
    action that someone named [constructor]. *)
Definition eventTypes : list string := ["dragstart"; "dragend"; "constructor"].

Definition inherited (s : string) : bool :=
  bool_decide (s ∈ ["constructor"; "toString"; "valueOf"; "hasOwnProperty"]).

(** [globalEvents = {}] and no call on the document yet; listeners and
    options are numbered. *)
Definition fresh : Events.Registry nat := Events.mkRegistry ∅ [].

(** A method [stop()] that only leaves a trace. *)
Definition trace_stop (j : ref) (w : World) : World := add_log (Stopped j) w.

End EventScenario.

(** A string that is written out is the name of an event type. *)
Ltac name_ok :=
  split; [discriminate |
          intros a Ha; simpl in Ha;
          repeat (destruct Ha as [<-|Ha]; [reflexivity|]); destruct Ha].

(** Membership in a list that is written out. *)
Ltac in_list := repeat first [apply list_elem_of_here | apply list_elem_of_further].

(** * Properties *)

(** ** Arrays *)

Section ArrayFacts.
Context {A : Type} `{EqDecision A}.
Implicit Types (x y : A) (l : list A).

Lemma indexOf_ge x l : -1 <= indexOf x l.
Proof.
  induction l as [|y l IH]; simpl; [lia|].
  destruct (decide (y = x)); [lia|].
  destruct (decide (indexOf x l = -1)); lia.
Qed.

Lemma indexOf_absent x l : indexOf x l = -1 <-> x ∉ l.
Proof.
  induction l as [|y l IH]; simpl.
  - split; [intros _; apply not_elem_of_nil | done].
  - pose proof (indexOf_ge x l) as Hge.
    destruct (decide (y = x)) as [->|Hne].
    + split; [lia | intros Hn; exfalso; apply Hn; left].
    + rewrite not_elem_of_cons.
      destruct (decide (indexOf x l = -1)) as [He|He].
      * split; [intros _; split; [congruence | by apply IH] | done].
      * split; [lia | intros [_ Hn]; apply IH in Hn; contradiction].
Qed.

Lemma indexOf_present x l :
  x ∈ l ->
  0 <= indexOf x l < Z.of_nat (length l) /\ l !! Z.to_nat (indexOf x l) = Some x.
Proof.
  induction l as [|y l IH]; simpl; [by intros ?%elem_of_nil|].
  intros Hin. destruct (decide (y = x)) as [->|Hne].
  - split; [lia | done].
  - apply elem_of_cons in Hin as [->|Hin]; [done|].
    destruct (IH Hin) as [Hr Hl].
    destruct (decide (indexOf x l = -1)); [lia|].
    split; [lia|].
    replace (Z.to_nat (indexOf x l + 1)) with (S (Z.to_nat (indexOf x l))) by lia.
    done.
Qed.

(** [l.splice(l.indexOf(x), 1)] takes the first [x] out when there is one. *)
Lemma splice1_indexOf x l : x ∈ l -> splice1 (indexOf x l) l = arr_remove x l.
Proof.
  unfold splice1. induction l as [|y l IH]; [by intros ?%elem_of_nil|].
  intros Hin. cbn [indexOf arr_remove].
  destruct (decide (y = x)) as [->|Hne].
  - destruct (decide (0 < 0)); [lia|]. cbn [length].
    replace (Z.to_nat (0 `min` Z.of_nat (S (length l)))) with O by lia. done.
  - apply elem_of_cons in Hin as [->|Hin]; [done|].
    specialize (IH Hin). destruct (indexOf_present x l Hin) as [Hr _].
    destruct (decide (indexOf x l = -1)); [lia|].
    destruct (decide (indexOf x l + 1 < 0)); [lia|].
    destruct (decide (indexOf x l < 0)); [lia|].
    cbn [length].
    replace (Z.to_nat ((indexOf x l + 1) `min` Z.of_nat (S (length l))))
      with (S (Z.to_nat (indexOf x l `min` Z.of_nat (length l)))) by lia.
    cbn [delete list_delete]. f_equal. exact IH.
Qed.

Lemma arr_remove_absent x l : x ∉ l -> arr_remove x l = l.
Proof.
  induction l as [|y l IH]; [done|]. rewrite not_elem_of_cons. intros [Hne Hn].
  simpl. destruct (decide (y = x)); [congruence|]. by rewrite IH.
Qed.

Lemma arr_remove_subset x y l : y ∈ arr_remove x l -> y ∈ l.
Proof.
  induction l as [|z l IH]; simpl; [done|].
  destruct (decide (z = x)).
  - intros ?. by right.
  - rewrite !elem_of_cons. intros [->|Hy]; [by left | right; auto].
Qed.

Lemma arr_remove_NoDup x l : NoDup l -> x ∉ arr_remove x l.
Proof.
  induction 1 as [|y l Hy Hnd IH]; simpl; [apply not_elem_of_nil|].
  destruct (decide (y = x)) as [->|Hne]; [done|].
  rewrite not_elem_of_cons. split; [congruence | done].
Qed.

Lemma arr_remove_push_new x l : x ∉ l -> arr_remove x (push x l) = l.
Proof.
  unfold push. induction l as [|y l IH]; simpl.
  - intros _. destruct (decide (x = x)); done.
  - rewrite not_elem_of_cons. intros [Hne Hn].
    destruct (decide (y = x)); [congruence|]. by rewrite IH.
Qed.

Lemma arr_remove_length x l : (length (arr_remove x l) <= length l)%nat.
Proof.
  induction l as [|y l IH]; simpl; [lia|].
  destruct (decide (y = x)); simpl; lia.
Qed.

Lemma lookup_snoc l x : (l ++ [x]) !! length l = Some x.
Proof. by apply list_lookup_middle. Qed.

Lemma insert_snoc l x y : <[length l := y]> (l ++ [x]) = l ++ [y].
Proof. induction l as [|z l IH]; simpl; [done | by rewrite IH]. Qed.
End ArrayFacts.

(** ** [interact.use] *)

Section PluginFacts.
Variable install : ref -> Scope -> Scope.

Lemma installed_app l1 l2 : installed (l1 ++ l2) = installed l1 ++ installed l2.
Proof.
  induction l1 as [|e l1 IH]; simpl; [done|].
  destruct e; simpl; by rewrite IH.
Qed.

Lemma use_present plugin w :
  plugin ∈ _plugins (scope w) -> use install plugin w = w.
Proof.
  intros Hin. unfold use.
  destruct (decide (indexOf plugin (_plugins (scope w)) ≠ -1)) as [|Hn]; [done|].
  exfalso. apply Hn. intros He. by apply indexOf_absent in He.
Qed.

Lemma use_absent plugin w :
  plugin ∉ _plugins (scope w) ->
  use install plugin w =
    mkWorld
      (set_plugins (_plugins (install plugin (scope w)) ++ [plugin])
                   (install plugin (scope w)))
      (interactables w) (interactions w) (timers w)
      (log w ++ [Installed plugin]).
Proof.
  intros Hn. unfold use.
  destruct (decide (indexOf plugin (_plugins (scope w)) ≠ -1)) as [Hi|]; [|done].
  exfalso. apply Hi. by apply indexOf_absent.
Qed.

Hypothesis install_frame : forall p s, _plugins (install p s) = _plugins s.

Lemma use_inv plugin w : plugins_inv w -> plugins_inv (use install plugin w).
Proof.
  intros [Hlog Hnd].
  destruct (decide (plugin ∈ _plugins (scope w))) as [Hin|Hn].
  - rewrite use_present by done. by split.
  - rewrite use_absent by done. unfold plugins_inv. simpl.
    rewrite installed_app, install_frame, Hlog. simpl. split; [done|].
    apply NoDup_app. split; [done|]. split.
    + intros x Hx ->%list_elem_of_singleton. contradiction.
    + apply NoDup_singleton.
Qed.

Lemma use_all_inv ps w : plugins_inv w -> plugins_inv (use_all install ps w).
Proof.
  revert w. induction ps as [|p ps IH]; intros w Hw; simpl; [done|].
  apply IH. by apply use_inv.
Qed.
End PluginFacts.

(** C10 (as amended): [interact.use(plugin)] does nothing for a plugin that
    is already in [scope._plugins]; otherwise it calls
    [plugin.install(scope)] once and appends the plugin to the list as
    [install] left it.  Starting from the empty list of the module, and
    with installers that leave [scope._plugins] alone, the list never holds
    a plugin twice and no plugin is installed twice. *)
Theorem use_idempotent (install : ref -> Scope -> Scope) (plugin : ref) (w : World) :
  (plugin ∈ _plugins (scope w) -> use install plugin w = w) /\
  (plugin ∉ _plugins (scope w) ->
     installed (log (use install plugin w)) = installed (log w) ++ [plugin] /\
     _plugins (scope (use install plugin w)) =
       _plugins (install plugin (scope w)) ++ [plugin]) /\
  ((forall p s, _plugins (install p s) = _plugins s) ->
   _plugins (scope w) = [] -> installed (log w) = [] ->
   forall ps,
     NoDup (_plugins (scope (use_all install ps w))) /\
     NoDup (installed (log (use_all install ps w)))).
Proof.
  split; [apply use_present|]. split.
  - intros Hn. rewrite use_absent by done. simpl.
    by rewrite installed_app.
  - intros Hframe Hp Hl ps.
    assert (plugins_inv w) as Hw.
    { split; [congruence|]. rewrite Hp. apply NoDup_nil_2. }
    destruct (use_all_inv install Hframe ps w Hw) as [Hlog Hnd].
    by rewrite Hlog.
Qed.

(** ** [interact] *)

Lemma find_snoc_unique {A} (f : A -> bool) (l : list A) (r : A) :
  (forall x, x ∈ l -> f x = true -> x = r) ->
  f r = true ->
  find f (l ++ [r]) = Some r.
Proof.
  intros Hl Hr. induction l as [|y l IH]; simpl.
  - by rewrite Hr.
  - destruct (f y) eqn:Hy.
    + f_equal. apply Hl; [left | done].
    + apply IH. intros x Hx. apply Hl. by right.
Qed.

Lemma find_none_iff {A} (f : A -> bool) (l : list A) :
  find f l = None <-> forall x, x ∈ l -> f x = false.
Proof.
  induction l as [|y l IH]; simpl.
  - split; [intros _ x Hx; by apply elem_of_nil in Hx | done].
  - destruct (f y) eqn:Hy.
    + split; [done|]. intros H. rewrite H in Hy; [done | left].
    + rewrite IH. split.
      * intros H x [->|Hx]%elem_of_cons; auto.
      * intros H x Hx. apply H. by right.
Qed.

Lemma find_some_elem {A} (f : A -> bool) (l : list A) (x : A) :
  find f l = Some x -> x ∈ l /\ f x = true.
Proof.
  induction l as [|y l IH]; simpl; [done|].
  destruct (f y) eqn:Hy.
  - intros [= ->]. split; [left | done].
  - intros [Hx Hf]%IH. split; [by right | done].
Qed.

Lemma interact_found t o w ia :
  interactables_get t o w = Some ia -> interact t o w = (w, ia).
Proof. intros H. unfold interact. by rewrite H. Qed.

Lemma interact_created t o w :
  interactables_get t o w = None ->
  interact t o w =
    (mkWorld
       (set_interactables_list
          (interactables_list (scope w) ++ [length (interactables w)]) (scope w))
       (interactables w ++
          [mkInteractable t (options_context o) None (Some globalEvents)])
       (interactions w) (timers w) (log w),
     length (interactables w)).
Proof.
  intros H. unfold interact, interactables_new, set_events_global, push.
  rewrite H. cbn [interactables scope interactions timers log].
  rewrite lookup_snoc. cbn [target _context rectChecker].
  by rewrite insert_snoc.
Qed.

Lemma matches_old t c w w' ias' x :
  interactables w' = interactables w ++ ias' ->
  (x < length (interactables w))%nat ->
  matches t c w' x = matches t c w x.
Proof. intros He Hlt. unfold matches. rewrite He. by rewrite lookup_app_l. Qed.

Lemma matches_dangling t c w x :
  (length (interactables w) <= x)%nat -> matches t c w x = false.
Proof. intros Hge. unfold matches. by rewrite lookup_ge_None_2. Qed.

Lemma interact_again t o w :
  interact t o (interact t o w).1 = interact t o w.
Proof.
  destruct (interactables_get t o w) as [ia|] eqn:Hget.
  - rewrite (interact_found _ _ _ _ Hget). simpl. by apply interact_found.
  - rewrite (interact_created _ _ _ Hget). cbn [fst].
    apply interact_found. unfold interactables_get.
    cbn [scope interactables_list set_interactables_list].
    apply find_snoc_unique.
    + intros x Hx Hm. unfold interactables_get in Hget.
      pose proof (proj1 (find_none_iff _ _) Hget x Hx) as Hold.
      destruct (decide (x < length (interactables w))%nat) as [Hlt|Hge].
      * erewrite (matches_old _ _ w) in Hm; [|reflexivity|done].
        rewrite Hm in Hold. discriminate.
      * destruct (decide (x = length (interactables w))) as [|Hne]; [done|].
        rewrite matches_dangling in Hm; [done|].
        simpl. rewrite length_app. simpl. lia.
    + unfold matches. cbn [interactables]. rewrite lookup_snoc.
      cbn [target _context]. by rewrite !bool_decide_eq_true_2.
Qed.

(** C9: [interact(target, options)] hands back the interactable of the list
    that has the target and the context when there is one, and leaves the
    scope as it is; it makes a new one, added at the end of the list, only
    when there is none.  A second call with the same arguments returns the
    same object and changes nothing. *)
Theorem interact_get_or_create (t : Target) (o : option Options) (w : World) :
  (forall r, r ∈ interactables_list (scope w) ->
             matches t (options_context o) w r = true ->
     exists r', r' ∈ interactables_list (scope w) /\
                matches t (options_context o) w r' = true /\
                interact t o w = (w, r')) /\
  ((forall r, r ∈ interactables_list (scope w) ->
              matches t (options_context o) w r = false) ->
     let r' := length (interactables w) in
     (interact t o w).2 = r' /\
     interactables_list (scope (interact t o w).1) =
       interactables_list (scope w) ++ [r'] /\
     interactables (interact t o w).1 =
       interactables w ++
         [mkInteractable t (options_context o) None (Some globalEvents)]) /\
  interact t o (interact t o w).1 = interact t o w /\
  interactables_list (scope (interact t o (interact t o w).1).1) =
    interactables_list (scope (interact t o w).1).
Proof.
  split; [|split; [|split]].
  - intros r Hr Hm.
    destruct (interactables_get t o w) as [ia|] eqn:Hget.
    + exists ia. destruct (find_some_elem _ _ _ Hget) as [Hin Hf].
      split; [done|]. split; [done|]. by apply interact_found.
    + pose proof (proj1 (find_none_iff _ _) Hget r Hr). congruence.
  - intros Hnone r'.
    assert (interactables_get t o w = None) as Hget by by apply find_none_iff.
    rewrite (interact_created _ _ _ Hget). done.
  - apply interact_again.
  - by rewrite interact_again.
Qed.

(** ** The signal bus *)

Lemma set_curCoords_page_twice p q it :
  set_curCoords_page p (set_curCoords_page q it) = set_curCoords_page p it.
Proof. done. Qed.

Lemma set_curCoords_page_same it : set_curCoords_page (curCoords_page it) it = it.
Proof. by destruct it. Qed.

(** Handlers change nothing of an interaction but [curCoords.page]. *)
Lemma foldl_run_handler_frame i hs it ts v :
  (foldl (run_handler i) (it, ts, v) hs).1.1 =
  set_curCoords_page
    (curCoords_page (foldl (run_handler i) (it, ts, v) hs).1.1) it.
Proof.
  revert it ts v. induction hs as [|h hs IH]; intros it ts v; simpl.
  - by rewrite set_curCoords_page_same.
  - rewrite IH at 1. unfold apply_curPage.
    destruct (h_curPage (h i it)); [|done].
    by rewrite set_curCoords_page_twice.
Qed.

Lemma run_handlers_frame i hs it :
  (run_handlers i hs it).1.1 =
  set_curCoords_page (curCoords_page (run_handlers i hs it).1.1) it.
Proof. apply foldl_run_handler_frame. Qed.






(** ** The steps of the engine on the interaction it has just created *)

Lemma update_interaction_snoc s ias its ts lg f it :
  update_interaction (length its) f (mkWorld s ias (its ++ [it]) ts lg) =
  mkWorld s ias (its ++ [f it]) ts lg.
Proof.
  unfold update_interaction, set_interaction. simpl.
  by rewrite lookup_snoc, insert_snoc.
Qed.

Lemma fire_phase_snoc s ias its ts lg ph d it ia :
  interactable it = Some ia ->
  fire_phase (length its) ph d (mkWorld s ias (its ++ [it]) ts lg) =
  mkWorld s ias (its ++ [it]) ts
    (lg ++ [Fired ia (mkEvent (prepared_name it +:+ ph) (length its) d)]).
Proof.
  intros Hia. unfold fire_phase. simpl. by rewrite lookup_snoc, Hia.
Qed.

Lemma signals_fire_snoc s ias its ts lg ch hs it :
  signals_fire ch hs (length its) (mkWorld s ias (its ++ [it]) ts lg) =
  (mkWorld s ias (its ++ [(run_handlers (length its) hs it).1.1])
     (ts ++ (run_handlers (length its) hs it).1.2)
     (lg ++ [Emitted ch (length its)]),
   (run_handlers (length its) hs it).2).
Proof.
  unfold signals_fire. simpl. rewrite lookup_snoc.
  destruct (run_handlers (length its) hs it) as [[it' ts'] v].
  unfold add_timers, set_interaction. simpl. by rewrite insert_snoc.
Qed.

Lemma action_move_snoc s ias its ts lg it ia :
  interactable it = Some ia ->
  action_move (length its) (mkWorld s ias (its ++ [it]) ts lg) =
  mkWorld s ias
    (its ++ [set_phase MOVED (set_prevCoords_page (curCoords_page it) it)]) ts
    (lg ++ [Fired ia (mkEvent (prepared_name it +:+ "move") (length its)
                        (Some (point_sub (curCoords_page it) (prevCoords_page it))))]).
Proof.
  intros Hia. unfold action_move. cbn [interactions]. rewrite lookup_snoc.
  rewrite (fire_phase_snoc _ _ _ _ _ _ _ _ _ Hia).
  by rewrite update_interaction_snoc.
Qed.

Lemma finalize_snoc s ias its ts lg it ia :
  interactable it = Some ia ->
  finalize true (length its) (mkWorld s ias (its ++ [it]) ts lg) =
  mkWorld
    (set_interactions_list (arr_remove (length its) (interactions_list s)) s)
    ias (its ++ [ended it]) ts
    (lg ++ [Fired ia (mkEvent (prepared_name it +:+ "end") (length its) None)]).
Proof.
  intros Hia. unfold finalize.
  rewrite (fire_phase_snoc _ _ _ _ _ _ _ _ _ Hia).
  by rewrite update_interaction_snoc.
Qed.

(** ** The reflow engine *)

Lemma includes_true {A} `{EqDecision A} (x : A) l : x ∈ l -> includes x l = true.
Proof. intros. unfold includes. by apply bool_decide_eq_true_2. Qed.

Lemma includes_false {A} `{EqDecision A} (x : A) l : x ∉ l -> includes x l = false.
Proof. intros. unfold includes. by apply bool_decide_eq_false_2. Qed.

(** The world a successful reflow ends in, in closed form. *)
Lemma reflow_eq ia name rect w :
  name ∈ actions_names (scope w) ->
  measure ia w = Some rect ->
  let i := length (interactions w) in
  let r4 := run_handlers i (before_action_move (scope w)) (at_start ia name rect) in
  let r7 := run_handlers i (before_action_end (scope w)) (at_ending ia name rect w) in
  let it7 := r7.1.1 in
  let l := interactions_list (scope w) ++ [i] in
  let lg :=
    log w ++
      [Fired ia (mkEvent (name +:+ "reflow") i None);
       Fired ia (mkEvent (name +:+ "start") i None);
       Emitted "before-action-move" i;
       Fired ia (mkEvent (name +:+ "move") i
                   (Some (point_sub (move_target ia name rect w)
                            (mkPoint (left rect) (top rect)))));
       Emitted "before-action-end" i] in
  reflow ia name w =
    if r7.2 then
      (mkWorld (set_interactions_list l (scope w)) (interactables w)
         (interactions w ++ [it7]) ((timers w ++ r4.1.2) ++ r7.1.2) lg,
       Handle i)
    else
      (mkWorld (set_interactions_list (arr_remove i l) (scope w)) (interactables w)
         (interactions w ++ [ended it7]) ((timers w ++ r4.1.2) ++ r7.1.2)
         (lg ++ [Fired ia (mkEvent (name +:+ "end") i None)]),
       Handle i).
Proof.
  intros Hname Hrect i r4 r7 it7 l lg. subst i. unfold reflow.
  rewrite (includes_true _ _ Hname), Hrect. cbn [negb].
  unfold create_interaction, push.
  rewrite (fire_phase_snoc _ _ _ _ _ _ _ _ ia) by done.
  rewrite update_interaction_snoc.
  rewrite (fire_phase_snoc _ _ _ _ _ _ _ _ ia) by done.
  rewrite update_interaction_snoc.
  cbn [scope before_action_move before_action_end set_interactions_list].
  rewrite signals_fire_snoc. cbn [fst].
  fold (at_start ia name rect). fold r4.
  rewrite (action_move_snoc _ _ _ _ _ _ ia)
    by (unfold r4; by rewrite run_handlers_frame).
  rewrite !update_interaction_snoc.
  cbn [scope before_action_move before_action_end set_interactions_list].
  rewrite signals_fire_snoc.
  assert (set_phase ENDING
            (lift_pointers
               (set_phase MOVED
                  (set_prevCoords_page (curCoords_page r4.1.1) r4.1.1))) =
          at_ending ia name rect w) as ->.
  { unfold r4 at 2. rewrite run_handlers_frame. done. }
  fold r7.
  assert (prepared_name r4.1.1 = name) as ->
    by (unfold r4; by rewrite run_handlers_frame).
  assert (prevCoords_page r4.1.1 = mkPoint (left rect) (top rect)) as ->
    by (unfold r4; by rewrite run_handlers_frame).
  fold (move_target ia name rect w).
  rewrite <- !app_assoc. cbn [app]. fold lg.
  destruct (r7.2) eqn:Hv.
  - done.
  - rewrite (finalize_snoc _ _ _ _ _ _ ia)
      by (unfold it7, r7; by rewrite run_handlers_frame).
    assert (prepared_name r7.1.1 = name) as ->
      by (unfold r7; by rewrite run_handlers_frame).
    done.
Qed.


Lemma stopped_app l1 l2 : stopped (l1 ++ l2) = stopped l1 ++ stopped l2.
Proof.
  induction l1 as [|e l1 IH]; simpl; [done|].
  destruct e; simpl; by rewrite IH.
Qed.



(** The interaction a blocked reflow leaves behind. *)
Lemma reflow_vetoed_eq ia name rect w :
  name ∈ actions_names (scope w) ->
  measure ia w = Some rect ->
  end_vetoed ia name rect w = true ->
  exists c ts lg,
    reflow ia name w =
      (mkWorld
         (set_interactions_list
            (interactions_list (scope w) ++ [length (interactions w)]) (scope w))
         (interactables w)
         (interactions w ++ [set_curCoords_page c (at_ending ia name rect w)])
         (timers w ++ ts) (log w ++ lg),
       Handle (length (interactions w))) /\
    stopped lg = [] /\
    fired ia lg =
      [mkEvent (name +:+ "reflow") (length (interactions w)) None;
       mkEvent (name +:+ "start") (length (interactions w)) None;
       mkEvent (name +:+ "move") (length (interactions w))
         (Some (point_sub (move_target ia name rect w)
                  (mkPoint (left rect) (top rect))))] /\
    forall ia', ia' ≠ ia -> fired ia' lg = [].
Proof.
  intros Hname Hrect Hv. pose proof (reflow_eq ia name rect w Hname Hrect) as He.
  cbv zeta in He. unfold end_vetoed in Hv. rewrite Hv in He.
  rewrite run_handlers_frame in He. rewrite <- app_assoc in He.
  eexists _, _, _. split; [exact He|]. split; [done|]. split.
  - simpl. by rewrite !decide_True.
  - intros ia' Hne. simpl. by rewrite !decide_False.
Qed.

(** The world a reflow that nothing blocks ends in. *)
Lemma reflow_completed_eq ia name rect w :
  name ∈ actions_names (scope w) ->
  measure ia w = Some rect ->
  end_vetoed ia name rect w = false ->
  exists c ts lg,
    reflow ia name w =
      (mkWorld
         (set_interactions_list
            (arr_remove (length (interactions w))
               (interactions_list (scope w) ++ [length (interactions w)]))
            (scope w))
         (interactables w)
         (interactions w ++
            [ended (set_curCoords_page c (at_ending ia name rect w))])
         (timers w ++ ts) (log w ++ lg),
       Handle (length (interactions w))) /\
    stopped lg = [] /\
    fired ia lg =
      [mkEvent (name +:+ "reflow") (length (interactions w)) None;
       mkEvent (name +:+ "start") (length (interactions w)) None;
       mkEvent (name +:+ "move") (length (interactions w))
         (Some (point_sub (move_target ia name rect w)
                  (mkPoint (left rect) (top rect))));
       mkEvent (name +:+ "end") (length (interactions w)) None] /\
    forall ia', ia' ≠ ia -> fired ia' lg = [].
Proof.
  intros Hname Hrect Hv. pose proof (reflow_eq ia name rect w Hname Hrect) as He.
  cbv zeta in He. unfold end_vetoed in Hv. rewrite Hv in He.
  rewrite run_handlers_frame in He. rewrite <- !app_assoc in He.
  eexists _, _, _. split; [exact He|]. split; [done|]. split.
  - simpl. by rewrite !decide_True.
  - intros ia' Hne. simpl. by rewrite !decide_False.
Qed.






(** C5: whatever the handlers do, the synthetic interaction of a reflow
    starts at the top-left corner of the rectangle that the measurement
    callback returns when [reflow] is called. *)
Theorem reflow_startCoords (ia : ref) (name : string) (rect : Rect) (w : World) :
  name ∈ actions_names (scope w) ->
  measure ia w = Some rect ->
  let i := length (interactions w) in
  (reflow ia name w).2 = Handle i /\
  exists it,
    interactions (reflow ia name w).1 !! i = Some it /\
    interactable it = Some ia /\
    startCoords_page it = mkPoint (left rect) (top rect).
Proof.
  intros Hname Hrect i. subst i.
  destruct (end_vetoed ia name rect w) eqn:Hv.
  - destruct (reflow_vetoed_eq _ _ _ _ Hname Hrect Hv) as (c & ts & lg & He & _).
    rewrite He. cbn [fst snd interactions]. split; [done|].
    eexists. split; [apply lookup_snoc | done].
  - destruct (reflow_completed_eq _ _ _ _ Hname Hrect Hv) as (c & ts & lg & He & _).
    rewrite He. cbn [fst snd interactions]. split; [done|].
    eexists. split; [apply lookup_snoc | done].
Qed.



(** C7: with an action name that is not registered, or on an interactable
    without a measurement callback, [reflow] is rejected and the world is
    what it was: no event is fired and the scope is not touched. *)
Theorem reflow_rejects (ia : ref) (name : string) (w : World) :
  (name ∉ actions_names (scope w) ->
     reflow ia name w = (w, Rejected InvalidActionName)) /\
  (forall o, interactables w !! ia = Some o -> rectChecker o = None ->
     exists e, reflow ia name w = (w, Rejected e) /\
               (name ∈ actions_names (scope w) -> e = MeasurementUnavailable)).
Proof.
  split.
  - intros Hn. unfold reflow. by rewrite (includes_false _ _ Hn).
  - intros o Ho Hr. unfold reflow, measure. rewrite Ho, Hr.
    destruct (decide (name ∈ actions_names (scope w))) as [Hin|Hn].
    + rewrite (includes_true _ _ Hin). by eexists.
    + rewrite (includes_false _ _ Hn). by eexists.
Qed.

(** ** Stopping an interaction *)

Lemma update_interaction_alter i f w :
  update_interaction i f w =
  mkWorld (scope w) (interactables w) (alter f i (interactions w)) (timers w) (log w).
Proof.
  unfold update_interaction, set_interaction. destruct w as [s ias its ts lg]. simpl.
  destruct (its !! i) as [it|] eqn:Hi.
  - f_equal. rewrite list_insert_alter. apply list_eq. intros j.
    rewrite !list_lookup_alter. case_decide; [|done].
    by rewrite Hi.
  - f_equal. apply list_eq. intros j. rewrite list_lookup_alter.
    case_decide; [|done]. subst. by rewrite Hi.
Qed.

Lemma fire_phase_frame i ph d w :
  exists l, stopped l = [] /\
    fire_phase i ph d w =
    mkWorld (scope w) (interactables w) (interactions w) (timers w) (log w ++ l).
Proof.
  unfold fire_phase, fire, add_log. destruct w as [s ias its ts lg]. simpl.
  destruct (its !! i) as [it|]; [destruct (interactable it)|].
  - eexists. split; [|reflexivity]. done.
  - exists []. by rewrite app_nil_r.
  - exists []. by rewrite app_nil_r.
Qed.

Lemma finalize_frame b i w :
  exists l, stopped l = [] /\
    finalize b i w =
    mkWorld
      (set_interactions_list (arr_remove i (interactions_list (scope w))) (scope w))
      (interactables w) (alter ended i (interactions w)) (timers w) (log w ++ l).
Proof.
  unfold finalize. destruct b.
  - destruct (fire_phase_frame i "end" None w) as (l & Hl & ->).
    exists l. split; [done|]. by rewrite update_interaction_alter.
  - exists []. split; [done|]. rewrite update_interaction_alter.
    by rewrite app_nil_r.
Qed.

Lemma alter_stop_rec i w :
  alter stop_rec i (interactions w) =
  if interacting i w then alter ended i (interactions w) else interactions w.
Proof.
  unfold interacting. apply list_eq. intros j.
  destruct (interactions w !! i) as [it|] eqn:Hi.
  - destruct (_interacting it) eqn:Hint.
    + rewrite !list_lookup_alter. case_decide; [|done].
      rewrite Hi. simpl. unfold stop_rec. by rewrite Hint.
    + rewrite list_lookup_alter. case_decide; [|done]. subst.
      rewrite Hi. simpl. unfold stop_rec. by rewrite Hint.
  - rewrite list_lookup_alter. case_decide; [|done]. subst.
    by rewrite Hi.
Qed.

Lemma interaction_stop_frame sfe j w :
  exists l, stopped l = [] /\
    log (interaction_stop sfe j w) = log w ++ Stopped j :: l /\
    interactions (interaction_stop sfe j w) = alter stop_rec j (interactions w) /\
    interactables (interaction_stop sfe j w) = interactables w /\
    timers (interaction_stop sfe j w) = timers w /\
    scope (interaction_stop sfe j w) =
      if interacting j w
      then set_interactions_list (arr_remove j (interactions_list (scope w))) (scope w)
      else scope w.
Proof.
  unfold interaction_stop. rewrite alter_stop_rec.
  replace (interacting j (add_log (Stopped j) w)) with (interacting j w) by done.
  destruct (interacting j w).
  - destruct (finalize_frame sfe j (add_log (Stopped j) w)) as (l & Hl & ->).
    exists l. simpl. by rewrite <- app_assoc.
  - exists []. simpl. done.
Qed.

(** ** How an interaction fares along a run *)

Lemma stop_rec_idemp it : stop_rec (stop_rec it) = stop_rec it.
Proof. unfold stop_rec. destruct (_interacting it) eqn:H; [done | by rewrite H]. Qed.

Lemma evolves_refl i w : evolves i w w [].
Proof.
  split; [by rewrite app_nil_r|]. split; [lia|].
  cbn [stopped]. case_decide as H; [by apply elem_of_nil in H | done].
Qed.


Lemma evolves_trans i w1 w2 w3 l1 l2 :
  evolves i w1 w2 l1 -> evolves i w2 w3 l2 -> evolves i w1 w3 (l1 ++ l2).
Proof.
  intros (Hlog1 & Hlen1 & Hi1) (Hlog2 & Hlen2 & Hi2).
  split; [by rewrite Hlog2, Hlog1, app_assoc|]. split; [lia|].
  rewrite Hi2, Hi1, stopped_app.
  destruct (decide (i ∈ stopped l1)) as [H1|H1];
    destruct (decide (i ∈ stopped l2)) as [H2|H2].
  - rewrite decide_True by (apply elem_of_app; by left).
    destruct (interactions w1 !! i); simpl; [|done]. by rewrite stop_rec_idemp.
  - rewrite decide_True by (apply elem_of_app; by left). done.
  - rewrite decide_True by (apply elem_of_app; by right). done.
  - rewrite decide_False; [done|]. intros [?|?]%elem_of_app; contradiction.
Qed.

Lemma interaction_stop_evolves sfe i j w :
  exists l, evolves i w (interaction_stop sfe j w) l /\ stopped l = [j].
Proof.
  destruct (interaction_stop_frame sfe j w) as (l & Hl & Hlog & Hint & _).
  exists (Stopped j :: l). split; [|by simpl; rewrite Hl].
  split; [done|]. split; [by rewrite Hint, length_alter|].
  rewrite Hint. simpl. rewrite Hl, list_lookup_alter.
  case_decide as Hji.
  - subst. rewrite decide_True; [done|]. by apply list_elem_of_singleton.
  - rewrite decide_False; [done|]. by intros ->%list_elem_of_singleton.
Qed.


Lemma unset_loop_evolves sfe i ia fuel k w w' :
  unset_loop sfe fuel ia k w = Some w' -> exists l, evolves i w w' l.
Proof.
  revert k w. induction fuel as [|fuel IH]; intros k w; simpl.
  - destruct (interactions_list (scope w) !! k); [done|].
    intros [= <-]. exists []. apply evolves_refl.
  - destruct (interactions_list (scope w) !! k) as [j|].
    + intros Hloop. apply IH in Hloop as (l2 & H2).
      destruct (interactions w !! j) as [it|]; [destruct (unset_guard ia it)|].
      * destruct (interaction_stop_evolves sfe i j w) as (l1 & H1 & _).
        eexists. by eapply evolves_trans.
      * by exists l2.
      * by exists l2.
    + intros [= <-]. exists []. apply evolves_refl.
Qed.





(** ** The listener of the [unset] signal *)

Lemma interaction_stop_list_length sfe j w :
  (length (interactions_list (scope (interaction_stop sfe j w))) <=
   length (interactions_list (scope w)))%nat.
Proof.
  destruct (interaction_stop_frame sfe j w) as (l & _ & _ & _ & _ & _ & Hs).
  rewrite Hs. destruct (interacting j w); [|done].
  simpl. apply arr_remove_length.
Qed.

(** The loop is over within as many rounds as the list is long. *)
Lemma unset_loop_terminates sfe ia fuel k w :
  (length (interactions_list (scope w)) <= k + fuel)%nat ->
  is_Some (unset_loop sfe fuel ia k w).
Proof.
  revert k w. induction fuel as [|fuel IH]; intros k w Hlen; simpl.
  - rewrite lookup_ge_None_2 by lia. done.
  - destruct (interactions_list (scope w) !! k) as [j|]; [|done].
    apply IH.
    destruct (interactions w !! j) as [it|]; [destruct (unset_guard ia it)|]; try lia.
    pose proof (interaction_stop_list_length sfe j w). lia.
Qed.

Lemma unset_loop_interactables sfe ia fuel k w w' :
  unset_loop sfe fuel ia k w = Some w' ->
  interactables_list (scope w') = interactables_list (scope w).
Proof.
  revert k w. induction fuel as [|fuel IH]; intros k w; simpl.
  - destruct (interactions_list (scope w) !! k); [done | by intros [= <-]].
  - destruct (interactions_list (scope w) !! k) as [j|]; [|by intros [= <-]].
    intros Hloop. rewrite (IH _ _ Hloop).
    destruct (interactions w !! j) as [it|]; [destruct (unset_guard ia it)|]; try done.
    destruct (interaction_stop_frame sfe j w) as (l & _ & _ & _ & _ & _ & Hs).
    rewrite Hs. by destruct (interacting j w).
Qed.

Lemma unset_guard_ended ia it : unset_guard ia (ended it) = false.
Proof. unfold unset_guard. simpl. by rewrite andb_false_r. Qed.

Lemma unset_guard_interacting ia it : unset_guard ia it = true -> _interacting it = true.
Proof. unfold unset_guard. by intros [[_ ?]%andb_prop _]%andb_prop. Qed.

(** [stop()] is called on nothing but interactions of the list that pass
    the guard of the loop. *)
Lemma unset_loop_sound sfe ia w0 fuel k w w' :
  (forall j, j ∈ interactions_list (scope w) -> j ∈ interactions_list (scope w0)) ->
  (forall j it, interactions w !! j = Some it -> unset_guard ia it = true ->
                interactions w0 !! j = Some it) ->
  unset_loop sfe fuel ia k w = Some w' ->
  exists l, log w' = log w ++ l /\
    forall j, j ∈ stopped l ->
      j ∈ interactions_list (scope w0) /\
      exists it, interactions w0 !! j = Some it /\ unset_guard ia it = true.
Proof.
  revert k w. induction fuel as [|fuel IH]; intros k w Hlist Hrec; simpl.
  - destruct (interactions_list (scope w) !! k); [done|]. intros [= <-].
    exists []. split; [by rewrite app_nil_r|]. by intros j ?%elem_of_nil.
  - destruct (interactions_list (scope w) !! k) as [j|] eqn:Hk.
    2:{ intros [= <-]. exists []. split; [by rewrite app_nil_r|].
        by intros j ?%elem_of_nil. }
    destruct (interactions w !! j) as [it|] eqn:Hj;
      [destruct (unset_guard ia it) eqn:Hg|]; try by apply IH.
    intros Hloop.
    destruct (interaction_stop_frame sfe j w) as (l1 & Hl1 & Hlog & Hint & _ & _ & Hs).
    apply IH in Hloop as (l2 & Hlog2 & Hsound).
    + exists (Stopped j :: l1 ++ l2). split.
      { rewrite Hlog2, Hlog. rewrite <- app_assoc. done. }
      intros j'. simpl. rewrite stopped_app, Hl1. simpl.
      intros [->|Hin]%elem_of_cons; [|by apply Hsound].
      split; [apply Hlist; by eapply list_elem_of_lookup_2|].
      exists it. split; [by apply Hrec | done].
    + intros j'. rewrite Hs. destruct (interacting j w); [|by apply Hlist].
      simpl. intros Hin%arr_remove_subset. by apply Hlist.
    + intros j' it'. rewrite Hint, list_lookup_alter.
      case_decide as Hjj.
      * subst j'. rewrite Hj. simpl. intros [= <-].
        unfold stop_rec. rewrite (unset_guard_interacting _ _ Hg).
        by rewrite unset_guard_ended.
      * apply Hrec.
Qed.

(** The first interaction of the list that passes the guard is stopped. *)
Lemma unset_loop_first sfe ia pre : forall front j post it fuel w w',
  interactions_list (scope w) = front ++ pre ++ j :: post ->
  (forall x it', x ∈ pre -> interactions w !! x = Some it' ->
                 unset_guard ia it' = false) ->
  interactions w !! j = Some it ->
  unset_guard ia it = true ->
  unset_loop sfe fuel ia (length front) w = Some w' ->
  exists l, log w' = log w ++ l /\ j ∈ stopped l.
Proof.
  induction pre as [|x pre IH]; intros front j post it fuel w w' Hlist Hpre Hj Hg.
  - simpl in Hlist.
    destruct fuel as [|fuel]; simpl; rewrite Hlist, list_lookup_middle by done;
      [done|].
    rewrite Hj, Hg. intros Hloop.
    destruct (unset_loop_evolves sfe j ia _ _ _ _ Hloop) as (l2 & Hlog2 & _).
    destruct (interaction_stop_frame sfe j w) as (l1 & Hl1 & Hlog & _).
    exists (Stopped j :: l1 ++ l2). split.
    + rewrite Hlog2, Hlog, <- app_assoc. done.
    + simpl. left.
  - simpl in Hlist.
    destruct fuel as [|fuel]; simpl; rewrite Hlist, list_lookup_middle by done;
      [done|].
    assert (match interactions w !! x with
            | Some it' => if unset_guard ia it' then interaction_stop sfe x w else w
            | None => w
            end = w) as ->.
    { destruct (interactions w !! x) as [it'|] eqn:Hx; [|done].
      rewrite (Hpre x it'); [done | left | done]. }
    intros Hloop.
    apply (IH (front ++ [x]) j post it fuel w w'); try done.
    + by rewrite <- app_assoc.
    + intros y it' Hy. apply Hpre. by right.
    + rewrite length_app. simpl. by replace (length front + 1)%nat with (S (length front)) by lia.
Qed.

Lemma splice1_indexOf_gone {A} `{EqDecision A} (x : A) (l : list A) :
  NoDup l -> x ∉ splice1 (indexOf x l) l.
Proof.
  intros Hnd. destruct (decide (x ∈ l)) as [Hin|Hn].
  - rewrite splice1_indexOf by done. by apply arr_remove_NoDup.
  - unfold splice1. intros Hx%list_elem_of_delete_inv. contradiction.
Qed.

(** X17: the listener of [unset] always returns; it takes the interactable
    out of a [scope.interactables.list] without repetitions and leaves the
    other entries in place; it calls [stop()] on nothing but interactions
    of [scope.interactions.list] that are bound to the interactable, are
    interacting and pass the test of [_ending] in the guard, and it does
    call it on the first of these in the list. *)
Theorem unset_removes_and_stops (stopFiresEnd : bool) (ia : ref) (w : World) :
  NoDup (interactables_list (scope w)) ->
  exists w' l,
    on_unset stopFiresEnd ia w = Some w' /\
    log w' = log w ++ l /\
    (ia ∉ interactables_list (scope w')) /\
    (ia ∈ interactables_list (scope w) ->
       interactables_list (scope w') = arr_remove ia (interactables_list (scope w))) /\
    (forall j, j ∈ stopped l ->
       j ∈ interactions_list (scope w) /\
       exists it, interactions w !! j = Some it /\
                  interactable it = Some ia /\
                  _interacting it = true /\ _ending it = true) /\
    (forall pre j post it,
       interactions_list (scope w) = pre ++ j :: post ->
       (forall x it', x ∈ pre -> interactions w !! x = Some it' ->
                      unset_guard ia it' = false) ->
       interactions w !! j = Some it ->
       interactable it = Some ia -> _interacting it = true -> _ending it = true ->
       j ∈ stopped l).
Proof.
  intros Hnd. unfold on_unset.
  set (w1 := set_scope _ w).
  destruct (unset_loop_terminates stopFiresEnd ia
              (length (interactions_list (scope w1))) 0 w1) as [w' Hloop]; [lia|].
  destruct (unset_loop_sound stopFiresEnd ia w1 _ _ _ _
              (fun _ H => H) (fun _ _ H _ => H) Hloop) as (l & Hlog & Hsound).
  exists w', l. split; [done|]. split; [done|].
  rewrite (unset_loop_interactables _ _ _ _ _ _ Hloop).
  split; [by apply splice1_indexOf_gone|].
  split; [intros Hin; by apply splice1_indexOf|]. split.
  - intros j Hj. destruct (Hsound j Hj) as [Hin (it & Hit & Hg)].
    split; [done|]. exists it. split; [done|].
    unfold unset_guard in Hg.
    apply andb_prop in Hg as [[Hb Hi]%andb_prop He].
    by apply bool_decide_eq_true in Hb.
  - intros pre j post it Hlist Hpre Hj Hb Hi He.
    destruct (unset_loop_first stopFiresEnd ia pre [] j post it
                (length (interactions_list (scope w1))) w1 w')
      as (l' & Hlog' & Hin); try done.
    { unfold unset_guard. rewrite Hi, He. by rewrite bool_decide_eq_true_2. }
    rewrite Hlog in Hlog'. apply app_inv_head in Hlog'. by subst l'.
Qed.

(** ** The claims at concrete inputs *)






Lemma reflow_startCoords_witness :
  let w := Scenario.world [Scenario.steer] [Scenario.block_end] in
  "test" ∈ actions_names (scope w) /\
  measure 0%nat w = Some Scenario.rect /\
  (reflow 0%nat "test" w).2 = Handle 0%nat /\
  exists it,
    interactions (reflow 0%nat "test" w).1 !! 0%nat = Some it /\
    interactable it = Some 0%nat /\
    startCoords_page it = mkPoint 200 100.
Proof.
  split; [in_list|]. split; [reflexivity|].
  apply (reflow_startCoords 0%nat "test" Scenario.rect
           (Scenario.world [Scenario.steer] [Scenario.block_end]));
    [in_list | reflexivity].
Defined.


Lemma reflow_rejects_witness :
  let w := Scenario.world [] [] in
  let bare := mkInteractable (Element 1%nat) None None None in
  let w2 := mkWorld (scope w) [Scenario.window; bare] [] [] [] in
  ("drag" ∉ actions_names (scope w)) /\
  reflow 0%nat "drag" w = (w, Rejected InvalidActionName) /\
  (interactables w2 !! 1%nat = Some bare /\ rectChecker bare = None) /\
  reflow 1%nat "test" w2 = (w2, Rejected MeasurementUnavailable).
Proof.
  assert ("drag" ∉ ["test"]) as Hn.
  { intros H. apply list_elem_of_In in H. simpl in H. destruct H as [H|[]].
    discriminate. }
  split; [exact Hn|]. split.
  - apply (proj1 (reflow_rejects 0%nat "drag" (Scenario.world [] []))). exact Hn.
  - split; [split; reflexivity|].
    destruct (proj2 (reflow_rejects 1%nat "test"
                       (mkWorld (scope (Scenario.world [] []))
                          [Scenario.window; mkInteractable (Element 1%nat) None None None]
                          [] [] []))
                    (mkInteractable (Element 1%nat) None None None)
                    eq_refl eq_refl) as (e & He & Hm).
    rewrite He. rewrite Hm; [reflexivity | in_list].
Defined.

(** C8: the listener of [unset] does not stop every interaction bound to
    the interactable.  The comment of its loop reads "Stop related
    interactions when an Interactable is unset", but the guard asks for
    [interaction._ending]: an interaction of the list that is bound to the
    interactable and in the middle of a drag, whose [_ending] is not set,
    gets no call of [stop()] and goes on interacting with an interactable
    that is no longer in the list. *)
Lemma unset_leaves_bound_running :
  let w := Scenario.busy [Scenario.dragging false] in
  exists w' it,
    on_unset true 0%nat w = Some w' /\
    0%nat ∈ interactions_list (scope w) /\
    interactions w !! 0%nat = Some it /\
    interactable it = Some 0%nat /\
    _interacting it = true /\
    _ending it = false /\
    (0%nat ∉ interactables_list (scope w')) /\
    stopped (log w') = [] /\
    interacting 0%nat w' = true.
Proof.
  eexists _, _. split; [vm_compute; reflexivity|].
  split; [in_list|]. repeat split. apply not_elem_of_nil.
Qed.

(** When [stop()] takes the interaction out of the list, the iterator of
    the loop passes over the entry that follows it: of two blocked
    interactions in a row, the second one is not stopped. *)
Example unset_passes_over_next :
  let w := Scenario.busy [Scenario.dragging true; Scenario.dragging true] in
  exists w',
    on_unset true 0%nat w = Some w' /\
    stopped (log w') = [0%nat] /\
    interactions_list (scope w') = [1%nat] /\
    interacting 1%nat w' = true.
Proof. eexists. split; [vm_compute; reflexivity|]. repeat split. Qed.

(** [list.splice(list.indexOf(x), 1)] with an [x] that is not in the list
    takes the last entry out. *)
Example unset_twice_removes_another :
  let w := Scenario.busy [] in
  exists w',
    on_unset true 7%nat w = Some w' /\
    interactables_list (scope w) = [0%nat] /\
    interactables_list (scope w') = [].
Proof. eexists. split; [vm_compute; reflexivity|]. split; reflexivity. Qed.

Lemma unset_removes_and_stops_witness :
  let w := Scenario.busy [Scenario.dragging false; Scenario.dragging true] in
  NoDup (interactables_list (scope w)) /\
  exists w' l,
    on_unset true 0%nat w = Some w' /\
    log w' = log w ++ l /\
    (0%nat ∉ interactables_list (scope w')) /\
    1%nat ∈ stopped l.
Proof.
  assert (NoDup [0%nat]) as Hnd by (apply NoDup_singleton).
  split; [exact Hnd|].
  destruct (unset_removes_and_stops true 0%nat
              (Scenario.busy [Scenario.dragging false; Scenario.dragging true]) Hnd)
    as (w' & l & Hun & Hlog & Hgone & _ & _ & Hfirst).
  exists w', l. split; [exact Hun|]. split; [exact Hlog|]. split; [exact Hgone|].
  apply (Hfirst [0%nat] 1%nat [] (Scenario.dragging true)).
  - reflexivity.
  - intros x it' Hx Hit. apply list_elem_of_singleton in Hx. subst x.
    injection Hit as <-. reflexivity.
  - reflexivity.
  - reflexivity.
  - reflexivity.
  - reflexivity.
Defined.

Lemma interact_get_or_create_witness :
  let w0 := Scenario.loaded in
  let w1 := (interact (Selector "selector") None w0).1 in
  (interact (Selector "selector") None w0).2 = 0%nat /\
  interactables_list (scope w1) = [0%nat] /\
  (0%nat ∈ interactables_list (scope w1) /\
   matches (Selector "selector") None w1 0%nat = true) /\
  interact (Selector "selector") None w1 = (w1, 0%nat).
Proof.
  destruct (interact_get_or_create (Selector "selector") None Scenario.loaded)
    as (_ & Hnew & _ & _).
  destruct Hnew as (Hr & Hl & _).
  { intros r Hr. by apply elem_of_nil in Hr. }
  split; [exact Hr|]. split; [exact Hl|].
  assert (0%nat ∈ [0%nat]) as Hin by in_list.
  split; [split; [exact Hin | reflexivity]|].
  destruct (interact_get_or_create (Selector "selector") None
              (interact (Selector "selector") None Scenario.loaded).1)
    as (Hold & _).
  destruct (Hold 0%nat Hin eq_refl) as (r' & Hr' & _ & He).
  apply list_elem_of_singleton in Hr'. subst r'. exact He.
Defined.

(** C10 as it was stated fails: [plugin.install] is handed the scope
    itself.  A plugin whose [install] pushes it on [scope._plugins] is in
    the list twice after one call of [use]; and after a plugin whose
    [install] empties the list, a plugin used before is installed once
    more. *)
Lemma use_never_duplicates_counterexample :
  _plugins (scope Scenario.loaded) = [] /\
  installed (log Scenario.loaded) = [] /\
  _plugins (scope (use PluginScenario.push_self 3%nat Scenario.loaded)) =
    [3%nat; 3%nat] /\
  ~ NoDup (_plugins (scope (use PluginScenario.push_self 3%nat Scenario.loaded))) /\
  installed (log (use_all PluginScenario.reset_by_5 [3; 5; 3]%nat Scenario.loaded)) =
    [3%nat; 5%nat; 3%nat] /\
  ~ NoDup (installed (log (use_all PluginScenario.reset_by_5 [3; 5; 3]%nat
                             Scenario.loaded))).
Proof.
  split; [reflexivity|]. split; [reflexivity|].
  assert (_plugins (scope (use PluginScenario.push_self 3%nat Scenario.loaded)) =
            [3%nat; 3%nat]) as H1 by (vm_compute; reflexivity).
  assert (installed (log (use_all PluginScenario.reset_by_5 [3; 5; 3]%nat
                            Scenario.loaded)) = [3%nat; 5%nat; 3%nat]) as H2
    by (vm_compute; reflexivity).
  split; [exact H1|]. split.
  - rewrite H1. intros Hnd. apply NoDup_cons in Hnd as [Hn _].
    apply Hn. by left.
  - split; [exact H2|]. rewrite H2. intros Hnd. apply NoDup_cons in Hnd as [Hn _].
    apply Hn. right. by left.
Qed.

Lemma use_idempotent_witness :
  let inst := fun (_ : ref) (s : Scope) => s in
  let w1 := use inst 3%nat Scenario.loaded in
  (3%nat ∉ _plugins (scope Scenario.loaded)) /\
  installed (log w1) = [3%nat] /\
  _plugins (scope w1) = [3%nat] /\
  3%nat ∈ _plugins (scope w1) /\
  use inst 3%nat w1 = w1 /\
  NoDup (_plugins (scope (use_all inst [3; 5; 3; 5; 3]%nat Scenario.loaded))) /\
  NoDup (installed (log (use_all inst [3; 5; 3; 5; 3]%nat Scenario.loaded))).
Proof.
  assert (3%nat ∉ @nil nat) as Hn by apply not_elem_of_nil.
  assert (3%nat ∈ [3%nat]) as Hin by in_list.
  split; [exact Hn|].
  destruct (use_idempotent (fun _ s => s) 3%nat Scenario.loaded)
    as (_ & Habsent & Hall).
  destruct (Habsent Hn) as [Hlog Hpl].
  split; [exact Hlog|]. split; [exact Hpl|]. split; [exact Hin|]. split.
  - apply (proj1 (use_idempotent (fun _ s => s) 3%nat
                    (use (fun _ s => s) 3%nat Scenario.loaded))).
    exact Hin.
  - apply (Hall (fun _ _ => eq_refl) eq_refl eq_refl).
Defined.

(** ** The assertions of the test files, run on the model *)

(** test('reflow') *)
Example test_reflow :
  let w := Scenario.world [Scenario.steer] [] in
  let w' := (reflow 0%nat "test" w).1 in
  map type (fired 0%nat (log w')) =
    ["testreflow"; "teststart"; "testmove"; "testend"] /\
  (startCoords_page <$> interactions w' !! 0%nat) = Some (mkPoint 200 100) /\
  (delta <$> fired 0%nat (log w') !! 2%nat) = Some (Some (mkPoint 100 (-50))) /\
  (pointerIsDown <$> interactions w' !! 0%nat) = Some false /\
  (length ∘ pointers <$> interactions w' !! 0%nat) = Some 0%nat /\
  includes 0%nat (interactions_list (scope w')) = false.
Proof. vm_compute. repeat split. Qed.

(** test('async reflow') *)
Example test_async_reflow :
  let w := Scenario.world [] [] in
  let w1 := (reflow 0%nat "test" w).1 in
  let w2 := on_before_action_end Scenario.block_end w1 in
  let w3 := (reflow 0%nat "test" w2).1 in
  let w4 := run_timer false w3 in
  interacting 0%nat w1 = false /\
  promise_of 0%nat w1 = Resolved 0%nat /\
  (reflow 0%nat "test" w2).2 = Handle 1%nat /\
  interacting 1%nat w3 = true /\
  promise_of 1%nat w3 = Pending 0%nat /\
  timers w3 = [TStop 1%nat] /\
  interacting 1%nat w4 = false /\
  promise_of 1%nat w4 = Resolved 0%nat.
Proof. vm_compute. repeat split. Qed.

(** test('interact export'), up to the first [unset] *)
Example test_interact_export :
  let w0 := Scenario.loaded in
  let '(w1, interactable1) := interact (Selector "selector") None w0 in
  let '(w2, again) := interact (Selector "selector") None w1 in
  again = interactable1 /\
  length (interactables_list (scope w2)) = 1%nat /\
  (length ∘ interactables_list ∘ scope <$> on_unset true interactable1 w2) = Some 0%nat.
Proof. vm_compute. repeat split. Qed.

(** * Further properties of the facade *)

(** ** [interact] and the listener of [unset] together *)

Lemma interact_result_matches t o w :
  matches t (options_context o) (interact t o w).1 (interact t o w).2 = true /\
  (interact t o w).2 ∈ interactables_list (scope (interact t o w).1).
Proof.
  destruct (interactables_get t o w) as [ia|] eqn:Hget.
  - rewrite (interact_found _ _ _ _ Hget). simpl.
    destruct (find_some_elem _ _ _ Hget). done.
  - rewrite (interact_created _ _ _ Hget). cbn [fst snd]. split.
    + unfold matches. cbn [interactables]. rewrite lookup_snoc.
      cbn [target _context]. by rewrite !bool_decide_eq_true_2.
    + cbn [scope interactables_list set_interactables_list].
      apply elem_of_app. right. by apply list_elem_of_singleton.
Qed.

Lemma matches_objects t c w r :
  matches t c w r = true <->
  exists a, interactables w !! r = Some a /\ target a = t /\ _context a = c.
Proof.
  unfold matches. destruct (interactables w !! r) as [a|]; split.
  - intros [H1 H2]%andb_prop. apply bool_decide_eq_true in H1, H2. by exists a.
  - intros (a' & [= <-] & <- & <-). by rewrite !bool_decide_eq_true_2.
  - done.
  - by intros (a & ? & _).
Qed.

(** X1: two calls of [interact] whose targets or contexts differ never
    return the same interactable. *)
Theorem interact_distinct_keys (t1 t2 : Target) (o1 o2 : option Options) (w : World) :
  t1 <> t2 \/ options_context o1 <> options_context o2 ->
  (interact t2 o2 (interact t1 o1 w).1).2 <> (interact t1 o1 w).2.
Proof.
  intros Hkey Heq.
  destruct (interact_result_matches t1 o1 w) as [Hm1 _].
  destruct (interact t1 o1 w) as [w1 r1]. simpl in *.
  apply matches_objects in Hm1 as (a1 & Ha1 & Ht1 & Hc1).
  destruct (interactables_get t2 o2 w1) as [r2|] eqn:Hget.
  - rewrite (interact_found _ _ _ _ Hget) in Heq. simpl in Heq. subst r2.
    destruct (find_some_elem _ _ _ Hget) as [_ Hm2].
    apply matches_objects in Hm2 as (a2 & Ha2 & Ht2 & Hc2).
    rewrite Ha1 in Ha2. injection Ha2 as <-.
    destruct Hkey as [Hk|Hk]; apply Hk; congruence.
  - rewrite (interact_created _ _ _ Hget) in Heq. simpl in Heq.
    apply lookup_lt_Some in Ha1. lia.
Qed.

Lemma interact_heap_grows t o w :
  exists ias', interactables (interact t o w).1 = interactables w ++ ias'.
Proof.
  destruct (interactables_get t o w) as [ia|] eqn:Hget.
  - rewrite (interact_found _ _ _ _ Hget). exists []. by rewrite app_nil_r.
  - rewrite (interact_created _ _ _ Hget). by eexists.
Qed.

Lemma interact_keeps_entry t o w t' c' r :
  r ∈ interactables_list (scope w) ->
  matches t' c' w r = true ->
  r ∈ interactables_list (scope (interact t o w).1) /\
  matches t' c' (interact t o w).1 r = true.
Proof.
  intros Hin Hm.
  destruct (interact_heap_grows t o w) as (ias' & Hheap).
  split.
  - destruct (interactables_get t o w) as [ia|] eqn:Hget.
    + by rewrite (interact_found _ _ _ _ Hget).
    + rewrite (interact_created _ _ _ Hget). simpl. apply elem_of_app. by left.
  - rewrite (matches_old _ _ w _ ias'); [done | done |].
    apply matches_objects in Hm as (a & Ha & _). by eapply lookup_lt_Some.
Qed.

Lemma interact_inv t o w : facade_inv w -> facade_inv (interact t o w).1.
Proof.
  intros (Hnd & Hall & Huniq).
  destruct (interactables_get t o w) as [ia|] eqn:Hget.
  - by rewrite (interact_found _ _ _ _ Hget).
  - rewrite (interact_created _ _ _ Hget). cbn [fst].
    pose proof (proj1 (find_none_iff _ _) Hget) as Hnone.
    rewrite Forall_forall in Hall.
    assert (length (interactables w) ∉ interactables_list (scope w)) as Hfresh.
    { intros Hin. specialize (Hall _ Hin). lia. }
    split; [|split]; cbn [scope interactables interactables_list set_interactables_list].
    + apply NoDup_app. split; [done|]. split; [|apply NoDup_singleton].
      intros x Hx ->%list_elem_of_singleton. contradiction.
    + rewrite Forall_forall. intros x [Hx| ->%list_elem_of_singleton]%elem_of_app;
        rewrite length_app; simpl; [specialize (Hall _ Hx)|]; lia.
    + assert (forall x a, x ∈ interactables_list (scope w) ->
                (interactables w ++
                   [mkInteractable t (options_context o) None (Some globalEvents)])
                  !! x = Some a ->
                interactables w !! x = Some a /\
                ~ (target a = t /\ _context a = options_context o)) as Hold.
      { intros x a Hx Ha. rewrite lookup_app_l in Ha by by apply Hall.
        split; [done|]. intros [Ht Hc].
        specialize (Hnone x Hx).
        assert (matches t (options_context o) w x = true) as Hm
          by (apply matches_objects; by exists a).
        rewrite Hm in Hnone. discriminate. }
      intros r1 r2 a1 a2 Hr1 Hr2 Ha1 Ha2 Ht Hc.
      apply elem_of_app in Hr1 as [Hr1|Hr1%list_elem_of_singleton];
        apply elem_of_app in Hr2 as [Hr2|Hr2%list_elem_of_singleton].
      * destruct (Hold _ _ Hr1 Ha1) as [Ha1' _].
        destruct (Hold _ _ Hr2 Ha2) as [Ha2' _].
        by eapply Huniq.
      * destruct (Hold _ _ Hr1 Ha1) as [_ Hn1]. subst r2.
        rewrite lookup_snoc in Ha2. injection Ha2 as <-. simpl in *.
        exfalso. by apply Hn1.
      * destruct (Hold _ _ Hr2 Ha2) as [_ Hn2]. subst r1.
        rewrite lookup_snoc in Ha1. injection Ha1 as <-. simpl in *.
        exfalso. by apply Hn2.
      * congruence.
Qed.

Lemma interact_all_inv calls w :
  facade_inv w -> facade_inv (interact_all calls w).
Proof.
  revert w. induction calls as [|[t o] calls IH]; intros w Hw; simpl; [done|].
  apply IH. by apply interact_inv.
Qed.

(** X2: [interact] keeps the bookkeeping of the interactables sound: after
    any run of calls the list holds no object twice, holds no reference to
    an object that does not exist, and holds no two interactables with the
    same target and context. *)
Theorem interact_keeps_facade_inv (calls : list (Target * option Options))
    (w : World) :
  facade_inv w -> facade_inv (interact_all calls w).
Proof. apply interact_all_inv. Qed.

Lemma get_unique t o w r :
  facade_inv w ->
  r ∈ interactables_list (scope w) ->
  matches t (options_context o) w r = true ->
  interactables_get t o w = Some r.
Proof.
  intros (_ & _ & Huniq) Hin Hm.
  destruct (interactables_get t o w) as [r'|] eqn:Hget.
  - destruct (find_some_elem _ _ _ Hget) as [Hin' Hm'].
    apply matches_objects in Hm as (a & Ha & Ht & Hc).
    apply matches_objects in Hm' as (a' & Ha' & Ht' & Hc').
    f_equal. eapply Huniq; try done; congruence.
  - pose proof (proj1 (find_none_iff _ _) Hget r Hin) as Hf.
    unfold interactables_get in *. rewrite Hm in Hf. discriminate.
Qed.

(** X3: the interactable that [interact(target, options)] has returned is
    the one every later call with the same target and context returns,
    whatever other calls of [interact] come in between. *)
Theorem interact_stable (t : Target) (o : option Options) (w : World)
    (calls : list (Target * option Options)) :
  facade_inv w ->
  let w1 := interact_all calls (interact t o w).1 in
  interact t o w1 = (w1, (interact t o w).2).
Proof.
  intros Hinv w1. subst w1.
  pose proof (interact_inv t o w Hinv) as Hinv1.
  destruct (interact_result_matches t o w) as [Hm Hin].
  destruct (interact t o w) as [w1 r]. simpl in *.
  apply interact_found.
  revert w1 Hinv1 Hm Hin. induction calls as [|[t' o'] calls IH]; intros w1 Hinv1 Hm Hin.
  - simpl. by apply get_unique.
  - simpl. destruct (interact_keeps_entry t' o' w1 _ _ _ Hin Hm) as [Hin' Hm'].
    apply IH; try done. by apply interact_inv.
Qed.

Lemma unset_loop_heap sfe ia fuel k w w' :
  unset_loop sfe fuel ia k w = Some w' -> interactables w' = interactables w.
Proof.
  revert k w. induction fuel as [|fuel IH]; intros k w; simpl.
  - destruct (interactions_list (scope w) !! k); [done | by intros [= <-]].
  - destruct (interactions_list (scope w) !! k) as [j|]; [|by intros [= <-]].
    intros Hloop. rewrite (IH _ _ Hloop).
    destruct (interactions w !! j) as [it|]; [destruct (unset_guard ia it)|]; try done.
    by destruct (interaction_stop_frame sfe j w) as (l & _ & _ & _ & Hh & _).
Qed.

(** What the listener of [unset] makes of the interactables. *)
Lemma on_unset_interactables sfe ia w :
  exists w',
    on_unset sfe ia w = Some w' /\
    interactables w' = interactables w /\
    interactables_list (scope w') =
      splice1 (indexOf ia (interactables_list (scope w))) (interactables_list (scope w)).
Proof.
  unfold on_unset. set (w1 := set_scope _ w).
  destruct (unset_loop_terminates sfe ia
              (length (interactions_list (scope w1))) 0 w1) as [w' Hloop]; [lia|].
  exists w'. split; [done|].
  rewrite (unset_loop_heap _ _ _ _ _ _ Hloop).
  by rewrite (unset_loop_interactables _ _ _ _ _ _ Hloop).
Qed.

Lemma matches_same_heap t c w w' r :
  interactables w' = interactables w -> matches t c w' r = matches t c w r.
Proof. intros H. unfold matches. by rewrite H. Qed.

Lemma find_arr_remove {A} `{EqDecision A} (f : A -> bool) (x : A) (l : list A) :
  f x = false -> find f (arr_remove x l) = find f l.
Proof.
  intros Hx. induction l as [|y l IH]; simpl; [done|].
  destruct (decide (y = x)) as [->|Hne].
  - by rewrite Hx.
  - simpl. by rewrite IH.
Qed.

Lemma find_ext {A} (f g : A -> bool) (l : list A) :
  (forall x, f x = g x) -> find f l = find g l.
Proof. intros H. induction l as [|y l IH]; simpl; [done|]. by rewrite H, IH. Qed.

(** X4: the listener of [unset] keeps the bookkeeping of the interactables
    sound, whichever interactable it is called for. *)
Theorem unset_keeps_facade_inv (stopFiresEnd : bool) (ia : ref) (w : World) :
  facade_inv w ->
  exists w', on_unset stopFiresEnd ia w = Some w' /\ facade_inv w'.
Proof.
  intros (Hnd & Hall & Huniq).
  destruct (on_unset_interactables stopFiresEnd ia w) as (w' & Hun & Hheap & Hlist).
  exists w'. split; [done|]. unfold facade_inv. rewrite Hheap, Hlist.
  unfold splice1. split; [|split].
  - eapply sublist_NoDup; [done | apply sublist_delete].
  - rewrite Forall_forall in Hall. rewrite Forall_forall.
    intros x Hx%list_elem_of_delete_inv. by apply Hall.
  - intros r1 r2 a1 a2 Hr1%list_elem_of_delete_inv Hr2%list_elem_of_delete_inv.
    by apply Huniq.
Qed.

(** X5: under a sound bookkeeping, unsetting an interactable of the list
    unregisters its target and context, and nothing else: the lookup finds
    no interactable for them afterwards, the lookup of every other target
    or context gives what it gave before, and a new call of [interact]
    makes a new object. *)
Theorem unset_unregisters (stopFiresEnd : bool) (t : Target) (o : option Options)
    (r : ref) (w : World) :
  facade_inv w ->
  r ∈ interactables_list (scope w) ->
  matches t (options_context o) w r = true ->
  exists w',
    on_unset stopFiresEnd r w = Some w' /\
    interactables_list (scope w') = arr_remove r (interactables_list (scope w)) /\
    interactables_get t o w' = None /\
    (interact t o w').2 <> r /\
    forall t' o',
      t' <> t \/ options_context o' <> options_context o ->
      interactables_get t' o' w' = interactables_get t' o' w.
Proof.
  intros Hinv Hin Hm.
  destruct (on_unset_interactables stopFiresEnd r w) as (w' & Hun & Hheap & Hlist).
  rewrite splice1_indexOf in Hlist by done.
  exists w'. split; [done|]. split; [done|].
  assert (interactables_get t o w' = None) as Hset.
  { unfold interactables_get. rewrite Hlist.
    apply find_none_iff. intros x Hx.
    destruct (matches t (options_context o) w' x) eqn:Hmx; [|done].
    rewrite (matches_same_heap _ _ w) in Hmx by done.
    pose proof (arr_remove_subset _ _ _ Hx) as Hx'.
    destruct Hinv as (Hnd & _ & Huniq).
    apply matches_objects in Hm as (a & Ha & Ht & Hc).
    apply matches_objects in Hmx as (a' & Ha' & Ht' & Hc').
    assert (x = r) as -> by (eapply Huniq; try done; congruence).
    exfalso. by eapply arr_remove_NoDup. }
  split; [done|]. split.
  - rewrite (interact_created _ _ _ Hset).
    cbn [snd]. rewrite Hheap.
    apply matches_objects in Hm as (a & Ha & _).
    apply lookup_lt_Some in Ha. lia.
  - intros t' o' Hkey. unfold interactables_get. rewrite Hlist.
    rewrite (find_ext _ (matches t' (options_context o') w))
      by (intros x; by apply matches_same_heap).
    apply find_arr_remove.
    destruct (matches t' (options_context o') w r) eqn:Hmr; [|done].
    apply matches_objects in Hm as (a & Ha & Ht & Hc).
    apply matches_objects in Hmr as (a' & Ha' & Ht' & Hc').
    rewrite Ha in Ha'. injection Ha' as <-.
    destruct Hkey as [Hk|Hk]; exfalso; apply Hk; congruence.
Qed.

Lemma splice1_absent {A} (l : list A) : splice1 (-1) l = removelast l.
Proof.
  unfold splice1. rewrite decide_True by lia.
  induction l as [|x l IH]; [done|].
  destruct l as [|y l]; [done|].
  cbn [length] in *. cbn [removelast].
  replace (Z.to_nat ((Z.of_nat (S (S (length l))) + -1) `max` 0))
    with (S (Z.to_nat ((Z.of_nat (S (length l)) + -1) `max` 0))) by lia.
  cbn [delete list_delete]. f_equal. exact IH.
Qed.

(** X6: when the listener of [unset] is called for an interactable that is
    not in the list (one that was unset before), [splice] gets the index
    [-1] and the last interactable of the list is taken out in its place. *)
Theorem unset_absent_removes_last (stopFiresEnd : bool) (ia : ref) (w : World) :
  ia ∉ interactables_list (scope w) ->
  exists w',
    on_unset stopFiresEnd ia w = Some w' /\
    interactables_list (scope w') = removelast (interactables_list (scope w)) /\
    (interactables_list (scope w) <> [] ->
       S (length (interactables_list (scope w'))) =
         length (interactables_list (scope w))).
Proof.
  intros Hn.
  destruct (on_unset_interactables stopFiresEnd ia w) as (w' & Hun & _ & Hlist).
  apply indexOf_absent in Hn. rewrite Hn, splice1_absent in Hlist.
  exists w'. split; [done|]. split; [done|].
  intros Hne. rewrite Hlist.
  rewrite (app_removelast_last ia Hne) at 2.
  rewrite length_app. simpl. lia.
Qed.

(** ** [use], a batch at a time *)

Lemma first_uses_elem acc ps p :
  p ∈ first_uses acc ps <-> p ∈ acc \/ p ∈ ps.
Proof.
  revert acc. induction ps as [|q ps IH]; intros acc; simpl.
  - split; [by left | intros [?|?%elem_of_nil]; done].
  - rewrite IH, elem_of_cons. destruct (decide (q ∈ acc)) as [Hq|Hq].
    + split; [intros [?|?]; auto | intros [?|[->|?]]; auto].
    + rewrite elem_of_app, list_elem_of_singleton. tauto.
Qed.

Lemma use_all_present install ps w :
  (forall p, p ∈ ps -> p ∈ _plugins (scope w)) -> use_all install ps w = w.
Proof.
  induction ps as [|p ps IH]; intros Hall; simpl; [done|].
  rewrite use_present by (apply Hall; left).
  apply IH. intros q Hq. apply Hall. by right.
Qed.

(** X7: with installers that leave [scope._plugins] alone, a run of calls
    of [interact.use] leaves in [scope._plugins] the plugins that were
    there followed by the new ones in the order of their first use; a
    plugin is in the list afterwards exactly when it was there or was
    used; and the same run once more changes nothing at all. *)
Theorem use_all_first_uses (install : ref -> Scope -> Scope) (ps : list ref)
    (w : World) :
  (forall p s, _plugins (install p s) = _plugins s) ->
  _plugins (scope (use_all install ps w)) = first_uses (_plugins (scope w)) ps /\
  (forall p, p ∈ _plugins (scope (use_all install ps w)) <->
             p ∈ _plugins (scope w) \/ p ∈ ps) /\
  use_all install ps (use_all install ps w) = use_all install ps w.
Proof.
  intros Hframe.
  assert (forall w, _plugins (scope (use_all install ps w)) =
                    first_uses (_plugins (scope w)) ps) as Hord.
  { clear w. induction ps as [|p ps IH]; intros w; simpl; [done|].
    rewrite IH. f_equal.
    destruct (decide (p ∈ _plugins (scope w))) as [Hin|Hn].
    - by rewrite use_present.
    - rewrite use_absent by done. simpl. by rewrite Hframe. }
  split; [apply Hord|]. split.
  - intros p. rewrite Hord. apply first_uses_elem.
  - apply use_all_present. intros p Hp. rewrite Hord.
    apply first_uses_elem. by right.
Qed.

(** * [on] and [off] *)

(** ** Strings of event types *)

Lemma is_white_space a : Ascii.eqb a Events.space = true -> Events.is_white a = true.
Proof. intros ->%Ascii.eqb_eq. reflexivity. Qed.

Lemma not_white_not_space a : Events.is_white a = false -> Ascii.eqb a Events.space = false.
Proof.
  intros Hw. destruct (Ascii.eqb a Events.space) eqn:He; [|done].
  apply is_white_space in He. congruence.
Qed.

Lemma type_name_cons t :
  Events.type_name t ->
  exists a t', t = String a t' /\ Events.is_white a = false /\
    forall b, In b (String.list_ascii_of_string t') -> Events.is_white b = false.
Proof.
  intros [Hne Hall]. destruct t as [|a t']; [done|].
  exists a, t'. split; [done|]. split.
  - apply Hall. by left.
  - intros b Hb. apply Hall. by right.
Qed.

Lemma type_name_no_space t : Events.type_name t -> Events.has_space t = false.
Proof.
  intros [_ Hall]. induction t as [|a t IH]; simpl; [done|].
  rewrite not_white_not_space by (apply Hall; by left).
  apply IH. intros b Hb. apply Hall. by right.
Qed.

Lemma trim_start_name t s :
  Events.type_name t -> Events.trim_start (t +:+ s) = t +:+ s.
Proof.
  intros (a & t' & -> & Ha & _)%type_name_cons. simpl. by rewrite Ha.
Qed.

Lemma trim_end_clean t :
  (forall b, In b (String.list_ascii_of_string t) -> Events.is_white b = false) ->
  Events.trim_end t = t.
Proof.
  induction t as [|a t IH]; intros Hall; simpl; [done|].
  rewrite IH by (intros b Hb; apply Hall; by right).
  destruct t; [|done]. rewrite (Hall a); [done | by left].
Qed.

Lemma trim_end_app s1 s2 :
  Events.trim_end s2 <> EmptyString ->
  Events.trim_end (s1 +:+ s2) = s1 +:+ Events.trim_end s2.
Proof.
  intros Hne. induction s1 as [|a s1 IH]; simpl; [done|].
  change (String a s1 +:+ Events.trim_end s2)
    with (String a (s1 +:+ Events.trim_end s2)).
  rewrite IH. destruct (s1 +:+ Events.trim_end s2) eqn:He; [|done].
  destruct s1; simpl in He; [contradiction | done].
Qed.

Lemma concat_names_nonempty ts :
  Forall Events.type_name ts -> ts <> [] -> String.concat " " ts <> EmptyString.
Proof.
  intros Hall Hne. destruct ts as [|t ts]; [done|].
  apply Forall_cons in Hall as [(a & t' & -> & _)%type_name_cons _].
  destruct ts; simpl; done.
Qed.

Lemma concat_cons2 t t2 ts :
  String.concat " " (t :: t2 :: ts) =
  t +:+ String Events.space (String.concat " " (t2 :: ts)).
Proof. reflexivity. Qed.

Lemma trim_end_sep s :
  Events.trim_end s = s -> s <> EmptyString ->
  Events.trim_end (String Events.space s) = String Events.space s.
Proof. intros He Hne. cbn [Events.trim_end]. rewrite He. by destruct s. Qed.

Lemma trim_names ts :
  Forall Events.type_name ts -> ts <> [] ->
  Events.trim (String.concat " " ts) = String.concat " " ts.
Proof.
  intros Hall Hne. unfold Events.trim.
  assert (Events.trim_start (String.concat " " ts) = String.concat " " ts) as ->.
  { destruct ts as [|t ts]; [done|].
    pose proof (Forall_inv Hall) as Ht.
    destruct (type_name_cons t Ht) as (a & t' & -> & Ha & _).
    destruct ts; simpl; by rewrite Ha. }
  clear Hne. induction Hall as [|t ts Ht Hall IH]; [done|].
  destruct ts as [|t2 ts].
  - simpl. apply trim_end_clean, Ht.
  - assert (String.concat " " (t2 :: ts) <> EmptyString) as Hne
      by (by apply concat_names_nonempty).
    rewrite concat_cons2, trim_end_app.
    + f_equal. by apply trim_end_sep.
    + by rewrite trim_end_sep.
Qed.

Lemma split_go_clean b t :
  (forall a, In a (String.list_ascii_of_string t) -> Ascii.eqb a Events.space = false) ->
  Events.split_go b t = [t].
Proof.
  revert b. induction t as [|a t IH]; intros b Hall; [done|].
  assert (Ascii.eqb a Events.space = false) as Ha by (apply Hall; simpl; by left).
  cbn [Events.split_go]. rewrite Ha.
  rewrite IH; [done|]. intros c Hc. apply Hall. simpl. by right.
Qed.

Lemma split_go_app b t rest :
  t <> EmptyString ->
  (forall a, In a (String.list_ascii_of_string t) -> Ascii.eqb a Events.space = false) ->
  Events.split_go b (t +:+ String Events.space rest) = t :: Events.split_go true rest.
Proof.
  revert b. induction t as [|a t IH]; intros b Hne Hall; [done|].
  assert (Ascii.eqb a Events.space = false) as Ha by (apply Hall; simpl; by left).
  change (String a t +:+ String Events.space rest)
    with (String a (t +:+ String Events.space rest)).
  cbn [Events.split_go]. rewrite Ha.
  destruct t as [|a' t'].
  - change (EmptyString +:+ String Events.space rest) with (String Events.space rest).
    cbn [Events.split_go]. by rewrite Ascii.eqb_refl.
  - rewrite IH; [done | done |]. intros c Hc. apply Hall. simpl. by right.
Qed.

Lemma type_name_clean t :
  Events.type_name t ->
  forall a, In a (String.list_ascii_of_string t) -> Ascii.eqb a Events.space = false.
Proof. intros [_ Hall] a Ha. by apply not_white_not_space, Hall. Qed.

(** The pieces of a string of names, joined by single spaces, are the
    names. *)
Lemma split_names b ts :
  Forall Events.type_name ts -> ts <> [] ->
  Events.split_go b (String.concat " " ts) = ts.
Proof.
  intros Hall Hne. revert b. induction Hall as [|t ts Ht Hall IH]; intros b; [done|].
  destruct ts as [|t2 ts].
  - cbn [String.concat]. apply split_go_clean. by apply type_name_clean.
  - rewrite concat_cons2, split_go_app.
    + f_equal. by apply IH.
    + apply Ht.
    + by apply type_name_clean.
Qed.

(** No piece has a space in it. *)
Lemma split_go_no_space b s :
  Forall (fun p => Events.has_space p = false) (Events.split_go b s).
Proof.
  revert b. induction s as [|a s IH]; intros b; cbn [Events.split_go].
  - by constructor.
  - destruct (Ascii.eqb a Events.space) eqn:Ha.
    + destruct b; [apply IH|]. constructor; [done | apply IH].
    + specialize (IH false). destruct (Events.split_go false s) as [|p ps].
      * constructor; [|done]. cbn [Events.has_space]. by rewrite Ha.
      * apply Forall_cons in IH as [Hp Hps].
        constructor; [|done]. cbn [Events.has_space]. by rewrite Ha.
Qed.

Lemma has_space_app_space t rest :
  Events.has_space (t +:+ String Events.space rest) = true.
Proof.
  induction t as [|a t IH].
  - change (EmptyString +:+ String Events.space rest) with (String Events.space rest).
    cbn [Events.has_space]. by rewrite Ascii.eqb_refl.
  - change (String a t +:+ String Events.space rest)
      with (String a (t +:+ String Events.space rest)).
    cbn [Events.has_space]. rewrite IH. by destruct (Ascii.eqb a Events.space).
Qed.

(** ** Registering and removing listeners *)

Section OnOffFacts.
Context {JSVal : Type} `{EqDecision JSVal}.
Variable eventTypes : list string.
Variable inherited : string -> bool.

Local Abbreviation on := (Events.on eventTypes inherited).
Local Abbreviation off := (Events.off eventTypes inherited).
Local Abbreviation on_one := (Events.on_one eventTypes inherited).
Local Abbreviation off_one := (Events.off_one eventTypes inherited).
Local Abbreviation Reg := (Events.Registry JSVal).
Local Abbreviation Out := (Events.Outcome JSVal).

Lemma on_plain n s (f o : JSVal) (r : Reg) :
  Events.has_space s = false ->
  on (S n) (Events.TString s) f o r = Some (on_one s f o r).
Proof. intros Hs. simpl. by rewrite Hs. Qed.

Lemma off_plain n s (f o : JSVal) (r : Reg) :
  Events.has_space s = false ->
  off (S n) (Events.TString s) f o r = Some (off_one s f o r).
Proof. intros Hs. simpl. by rewrite Hs. Qed.

Lemma on_array n items (f o : JSVal) (r : Reg) :
  on (S n) (Events.TArray items) f o r =
  Events.for_each (fun e => on n e f o) items r.
Proof. reflexivity. Qed.

Lemma off_array n items (f o : JSVal) (r : Reg) :
  off (S n) (Events.TArray items) f o r =
  Events.for_each (fun e => off n e f o) items r.
Proof. reflexivity. Qed.

Lemma on_object n props (f o : JSVal) (r : Reg) :
  on (S n) (Events.TObject props) f o r =
  Events.for_each (fun p => on n (Events.TString p.1) p.2 f) props r.
Proof. reflexivity. Qed.

Lemma off_object n props (f o : JSVal) (r : Reg) :
  off (S n) (Events.TObject props) f o r =
  Events.for_each (fun p => off n (Events.TString p.1) p.2 f) props r.
Proof. reflexivity. Qed.

Lemma for_each_plain (g : string -> Reg -> Out)
    (h : Events.TypeArg JSVal -> Reg -> option Out) ts r :
  (forall t r', t ∈ ts -> h (Events.TString t) r' = Some (g t r')) ->
  Events.for_each h (map Events.TString ts) r = Some (Events.each_type g ts r).
Proof.
  revert r. induction ts as [|t ts IH]; intros r Hh; simpl; [done|].
  rewrite Hh by left. destruct (g t r); [|done].
  apply IH. intros t' r' Ht'. apply Hh. by right.
Qed.

Lemma each_type_single (g : string -> Reg -> Out) t r :
  Events.each_type g [t] r = g t r.
Proof. simpl. by destruct (g t r). Qed.

Lemma names_no_space ts :
  Forall Events.type_name ts -> forall t, t ∈ ts -> Events.has_space t = false.
Proof.
  rewrite Forall_forall. intros Hall t Ht. by apply type_name_no_space, Hall.
Qed.

(** X8: for names of event types (not empty, free of white space), a call
    of [on] with the names joined by spaces, a call with the array of the
    names, and one call per name in order do the same; and so for
    [off]. *)
Theorem on_off_names (ts : list string) (f o : JSVal) (r : Reg) (n : nat) :
  Forall Events.type_name ts -> ts <> [] ->
  on (S (S n)) (Events.TString (String.concat " " ts)) f o r =
    Some (Events.each_type (fun t => on_one t f o) ts r) /\
  on (S (S n)) (Events.TArray (map Events.TString ts)) f o r =
    Some (Events.each_type (fun t => on_one t f o) ts r) /\
  off (S (S n)) (Events.TString (String.concat " " ts)) f o r =
    Some (Events.each_type (fun t => off_one t f o) ts r) /\
  off (S (S n)) (Events.TArray (map Events.TString ts)) f o r =
    Some (Events.each_type (fun t => off_one t f o) ts r).
Proof.
  intros Hall Hne.
  pose proof (names_no_space ts Hall) as Hns.
  assert (on (S (S n)) (Events.TArray (map Events.TString ts)) f o r =
          Some (Events.each_type (fun t => on_one t f o) ts r)) as Hon.
  { rewrite on_array. apply for_each_plain.
    intros t r' Ht. apply on_plain. by apply Hns. }
  assert (off (S (S n)) (Events.TArray (map Events.TString ts)) f o r =
          Some (Events.each_type (fun t => off_one t f o) ts r)) as Hoff.
  { rewrite off_array. apply for_each_plain.
    intros t r' Ht. apply off_plain. by apply Hns. }
  destruct ts as [|t [|t2 ts]]; [done| |].
  - cbn [String.concat]. rewrite on_plain, off_plain by (apply Hns; left).
    rewrite !each_type_single in *. done.
  - assert (Events.normalize (Events.TString (String.concat " " (t :: t2 :: ts))) =
            Events.TArray (JSVal:=JSVal) (map Events.TString (t :: t2 :: ts))) as Hnorm.
    { unfold Events.normalize. rewrite concat_cons2, has_space_app_space.
      rewrite <- concat_cons2. rewrite trim_names by done.
      unfold Events.split_spaces. by rewrite split_names. }
    split; [|split; [done|split; [|done]]].
    + rewrite <- Hon. cbn [Events.on]. by rewrite Hnorm.
    + rewrite <- Hoff. cbn [Events.off]. by rewrite Hnorm.
Qed.

Lemma listeners_set t t' ls (r : Reg) :
  Events.listeners t' (Events.set_listeners t ls r) =
  if decide (t = t') then ls else Events.listeners t' r.
Proof.
  unfold Events.listeners, Events.set_listeners. simpl.
  rewrite lookup_insert. by destruct (decide (t = t')).
Qed.

(** X9: for an InteractEvent type, [on] adds the listener at the end of the
    listeners of the type, and [off] then takes the first occurrence of the
    listener out: a listener that was not registered before is gone again
    and the listeners are as they were, one that was registered before
    loses its earlier place.  [globalEvents] keeps an array for the type,
    be it empty; the other types and the document are not touched. *)
Theorem on_off_round_trip (t : string) (f o o' : JSVal) (r : Reg) (n m : nat) :
  Events.has_space t = false ->
  t ∈ eventTypes ->
  (Events.globalEvents r !! t = None -> inherited t = false) ->
  exists r1 r2,
    on (S n) (Events.TString t) f o r = Some (Events.Returned r1) /\
    off (S m) (Events.TString t) f o' r1 = Some (Events.Returned r2) /\
    Events.globalEvents r1 !! t = Some (Events.listeners t r ++ [f]) /\
    Events.globalEvents r2 !! t = Some (arr_remove f (Events.listeners t r ++ [f])) /\
    (f ∉ Events.listeners t r ->
       Events.globalEvents r2 !! t = Some (Events.listeners t r)) /\
    (forall t', t' <> t ->
       Events.globalEvents r2 !! t' = Events.globalEvents r !! t') /\
    Events.document_calls r2 = Events.document_calls r.
Proof.
  intros Hs Hin Hinh.
  rewrite on_plain by done. unfold Events.on_one.
  rewrite (includes_true _ _ Hin).
  set (old := Events.listeners t r).
  assert (exists r1, (match Events.globalEvents r !! t with
                      | Some ls => Events.Returned (Events.set_listeners t (push f ls) r)
                      | None => if inherited t then Events.Thrown r
                                else Events.Returned (Events.set_listeners t [f] r)
                      end) = Events.Returned r1 /\
                     r1 = Events.set_listeners t (old ++ [f]) r) as (r1 & -> & Hr1).
  { unfold old, Events.listeners.
    destruct (Events.globalEvents r !! t) as [ls|] eqn:Hl; simpl.
    - by eexists.
    - rewrite Hinh by done. by eexists. }
  assert (f ∈ old ++ [f]) as Hf
    by (apply elem_of_app; right; by apply list_elem_of_singleton).
  exists r1, (Events.set_listeners t (arr_remove f (old ++ [f])) r1).
  split; [done|]. split.
  - rewrite off_plain by done. unfold Events.off_one.
    rewrite (includes_true _ _ Hin). cbn [negb].
    subst r1. cbn [Events.set_listeners Events.globalEvents].
    rewrite lookup_insert_eq. cbn zeta.
    rewrite decide_True by (intros He; by apply indexOf_absent in He).
    by rewrite splice1_indexOf.
  - subst r1. cbn [Events.set_listeners Events.globalEvents Events.document_calls].
    rewrite !lookup_insert_eq. split; [done|]. split; [done|]. split.
    + intros Hn. by rewrite (arr_remove_push_new f old Hn).
    + split; [|done]. intros t' Hne. by rewrite !lookup_insert_ne.
Qed.

(** X10: [off] for an InteractEvent type changes nothing when the listener
    is not among the listeners of the type, also when the type never had a
    listener. *)
Theorem off_unregistered (t : string) (f o : JSVal) (r : Reg) (n : nat) :
  Events.has_space t = false ->
  t ∈ eventTypes ->
  (Events.globalEvents r !! t = None -> inherited t = false) ->
  f ∉ Events.listeners t r ->
  off (S n) (Events.TString t) f o r = Some (Events.Returned r).
Proof.
  intros Hs Hin Hinh Hf. rewrite off_plain by done. unfold Events.off_one.
  rewrite (includes_true _ _ Hin). cbn [negb]. unfold Events.listeners in Hf.
  destruct (Events.globalEvents r !! t) as [ls|] eqn:Hl; simpl in *.
  - apply indexOf_absent in Hf. by rewrite decide_False by (by intros ?).
  - by rewrite Hinh.
Qed.

(** X11: for an InteractEvent type that is the name of a property which
    [globalEvents] inherits and for which it has no array of its own, [on]
    and [off] throw and change nothing; in an array of types, the types
    before it are dealt with and the types after it are not. *)
Theorem on_off_inherited_throws (t : string) (ts1 ts2 : list string) (f o : JSVal)
    (r r1 : Reg) (n : nat) :
  Events.has_space t = false ->
  t ∈ eventTypes ->
  inherited t = true ->
  (forall t1, t1 ∈ ts1 -> Events.has_space t1 = false) ->
  Events.each_type (fun t1 => on_one t1 f o) ts1 r = Events.Returned r1 ->
  Events.globalEvents r1 !! t = None ->
  on (S n) (Events.TString t) f o r1 = Some (Events.Thrown r1) /\
  off (S n) (Events.TString t) f o r1 = Some (Events.Thrown r1) /\
  on (S (S n)) (Events.TArray (map Events.TString (ts1 ++ t :: ts2))) f o r =
    Some (Events.Thrown r1).
Proof.
  intros Hs Hin Hinh Hns Hbefore Hnone.
  assert (on_one t f o r1 = Events.Thrown r1) as Hthrow.
  { unfold Events.on_one. by rewrite (includes_true _ _ Hin), Hnone, Hinh. }
  split; [rewrite on_plain by done; by rewrite Hthrow|]. split.
  - rewrite off_plain by done. unfold Events.off_one.
    by rewrite (includes_true _ _ Hin), Hnone, Hinh.
  - rewrite on_array, map_app. cbn [map].
    clear Hnone. revert r Hbefore.
    induction ts1 as [|t1 ts1 IH]; intros r Hbefore; cbn [app map Events.for_each].
    + simpl in Hbefore. injection Hbefore as ->.
      rewrite on_plain by done. by rewrite Hthrow.
    + rewrite on_plain by (apply Hns; left).
      simpl in Hbefore. destruct (on_one t1 f o r) as [r'|r']; [|done].
      apply IH; [|done]. intros t' Ht'. apply Hns. by right.
Qed.

(** X12: in the form with an object, each property is a type with its
    listener, the second argument is passed on as the options and the
    third is not used.  For types that are not InteractEvent types, [on]
    makes one call [events.add(document, type, listener, { options })] per
    property, in the order of the properties, and [off] one call of
    [events.remove]; [globalEvents] is not touched. *)
Theorem on_off_object_dom (props : list (string * JSVal)) (g o : JSVal) (r : Reg)
    (n : nat) :
  Forall (fun p => Events.has_space p.1 = false /\ p.1 ∉ eventTypes) props ->
  on (S (S n)) (Events.TObject props) g o r =
    Some (Events.Returned
            (Events.mkRegistry (Events.globalEvents r)
               (Events.document_calls r ++
                  map (fun p => Events.EventsAdd (Events.DString p.1) p.2 g) props))) /\
  off (S (S n)) (Events.TObject props) g o r =
    Some (Events.Returned
            (Events.mkRegistry (Events.globalEvents r)
               (Events.document_calls r ++
                  map (fun p => Events.EventsRemove (Events.DString p.1) p.2 g) props))).
Proof.
  intros Hall. rewrite on_object, off_object. split.
  - revert r. induction Hall as [|[t f] props [Hs Hn] Hall IH]; intros r;
      cbn [Events.for_each map].
    + rewrite app_nil_r. by destruct r.
    + rewrite on_plain by done. unfold Events.on_one.
      rewrite (includes_false _ _ Hn). rewrite IH.
      unfold Events.add_call. cbn [Events.globalEvents Events.document_calls fst snd].
      by rewrite <- app_assoc.
  - revert r. induction Hall as [|[t f] props [Hs Hn] Hall IH]; intros r;
      cbn [Events.for_each map].
    + rewrite app_nil_r. by destruct r.
    + rewrite off_plain by done. unfold Events.off_one.
      rewrite (includes_false _ _ Hn). cbn [negb]. rewrite IH.
      unfold Events.add_call. cbn [Events.globalEvents Events.document_calls fst snd].
      by rewrite <- app_assoc.
Qed.

(** ** What [on] never loses and [off] never adds *)

Lemma for_each_some {A} (h : A -> Reg -> option Out) l r :
  (forall x r', x ∈ l -> is_Some (h x r')) -> is_Some (Events.for_each h l r).
Proof.
  revert r. induction l as [|x l IH]; intros r Hh; simpl; [done|].
  destruct (Hh x r) as [out Hout]; [left|]. rewrite Hout.
  destruct out; [|done]. apply IH. intros y r' Hy. apply Hh. by right.
Qed.

Lemma for_each_rel {A} (R : Reg -> Reg -> Prop) (h : A -> Reg -> option Out) l :
  (forall r, R r r) ->
  (forall r1 r2 r3, R r1 r2 -> R r2 r3 -> R r1 r3) ->
  (forall x r out, x ∈ l -> h x r = Some out -> R r (Events.registry_of out)) ->
  forall r out, Events.for_each h l r = Some out -> R r (Events.registry_of out).
Proof.
  intros Hrefl Htrans. induction l as [|x l IH]; intros Hh r out; simpl.
  - intros [= <-]. apply Hrefl.
  - destruct (h x r) as [[r'|r']|] eqn:Hx; [| |done].
    + intros Hrest. eapply Htrans.
      * apply (Hh x r _ ltac:(left) Hx).
      * apply IH; [|done]. intros y r0 out0 Hy. apply Hh. by right.
    + intros [= <-]. apply (Hh x r _ ltac:(left) Hx).
Qed.

Lemma type_depth_item (x : Events.TypeArg JSVal) items :
  x ∈ items ->
  (type_depth x <= foldr (fun x acc => Nat.max (type_depth x) acc) 0 items)%nat.
Proof.
  induction items as [|y items IH]; [by intros ?%elem_of_nil|].
  intros [->|Hx]%elem_of_cons; simpl; [lia|]. specialize (IH Hx). lia.
Qed.

Lemma pieces_plain s (x : Events.TypeArg JSVal) :
  x ∈ map Events.TString (Events.split_spaces (Events.trim s)) ->
  exists p, x = Events.TString p /\ Events.has_space p = false.
Proof.
  intros (p & -> & Hp)%list_elem_of_fmap. exists p. split; [done|].
  pose proof (split_go_no_space false (Events.trim s)) as Hall.
  rewrite Forall_forall in Hall. by apply Hall.
Qed.

Lemma on_returns fuel ty (f o : JSVal) (r : Reg) :
  (type_depth ty <= fuel)%nat -> is_Some (on fuel ty f o r).
Proof.
  revert ty f o r. induction fuel as [|fuel IH]; intros ty f o r Hd.
  - destruct ty; simpl in Hd; lia.
  - destruct ty as [s|items|props|v]; cbn [type_depth] in Hd.
    + cbn [Events.on Events.normalize]. destruct (Events.has_space s); [|done].
      apply for_each_some. intros x r' (p & -> & Hp)%pieces_plain.
      destruct fuel as [|fuel']; [lia|]. by rewrite on_plain.
    + rewrite on_array. apply for_each_some. intros x r' Hx. apply IH.
      pose proof (type_depth_item x items Hx). lia.
    + rewrite on_object. apply for_each_some. intros x r' _. apply IH.
      cbn [type_depth]. lia.
    + done.
Qed.

Lemma off_returns fuel ty (f o : JSVal) (r : Reg) :
  (type_depth ty <= fuel)%nat -> is_Some (off fuel ty f o r).
Proof.
  revert ty f o r. induction fuel as [|fuel IH]; intros ty f o r Hd.
  - destruct ty; simpl in Hd; lia.
  - destruct ty as [s|items|props|v]; cbn [type_depth] in Hd.
    + cbn [Events.off Events.normalize]. destruct (Events.has_space s); [|done].
      apply for_each_some. intros x r' (p & -> & Hp)%pieces_plain.
      destruct fuel as [|fuel']; [lia|]. by rewrite off_plain.
    + rewrite off_array. apply for_each_some. intros x r' Hx. apply IH.
      pose proof (type_depth_item x items Hx). lia.
    + rewrite off_object. apply for_each_some. intros x r' _. apply IH.
      cbn [type_depth]. lia.
    + done.
Qed.

Lemma listeners_kept_refl (r : Reg) : listeners_kept r r.
Proof.
  split.
  - intros t ls Hl. exists []. by rewrite app_nil_r.
  - exists []. by rewrite app_nil_r.
Qed.

Lemma listeners_kept_trans (r1 r2 r3 : Reg) :
  listeners_kept r1 r2 -> listeners_kept r2 r3 -> listeners_kept r1 r3.
Proof.
  intros [H1 [c1 Hc1]] [H2 [c2 Hc2]]. split.
  - intros t ls Hl. destruct (H1 t ls Hl) as [l1 Hl1].
    destruct (H2 t _ Hl1) as [l2 Hl2]. exists (l1 ++ l2). by rewrite app_assoc.
  - exists (c1 ++ c2). by rewrite Hc2, Hc1, app_assoc.
Qed.

Lemma on_one_kept t (f o : JSVal) (r : Reg) :
  listeners_kept r (Events.registry_of (on_one t f o r)).
Proof.
  unfold Events.on_one. destruct (includes t eventTypes).
  - destruct (Events.globalEvents r !! t) as [ls|] eqn:Hl.
    + split; [|exists []; by rewrite app_nil_r].
      intros t' ls' Hl'. simpl. destruct (decide (t = t')) as [<-|Hne].
      * rewrite lookup_insert_eq. rewrite Hl in Hl'. injection Hl' as <-. by exists [f].
      * rewrite lookup_insert_ne by done. exists []. by rewrite app_nil_r.
    + destruct (inherited t); [apply listeners_kept_refl|].
      split; [|exists []; by rewrite app_nil_r].
      intros t' ls' Hl'. simpl. destruct (decide (t = t')) as [<-|Hne].
      * congruence.
      * rewrite lookup_insert_ne by done. exists []. by rewrite app_nil_r.
  - split; [|by eexists].
    intros t' ls' Hl'. exists []. by rewrite app_nil_r.
Qed.

(** X13: a call of [on], whatever its [type] argument (a string, an array,
    nested arrays, an object), returns or throws, and never loses a
    listener: every array of [globalEvents] still starts with what it
    held, and the calls made on the document before are still on
    record. *)
Theorem on_keeps_listeners (fuel : nat) (ty : Events.TypeArg JSVal) (f o : JSVal)
    (r : Reg) :
  (type_depth ty <= fuel)%nat ->
  exists out, on fuel ty f o r = Some out /\
              listeners_kept r (Events.registry_of out).
Proof.
  intros Hd. destruct (on_returns fuel ty f o r Hd) as [out Hout].
  exists out. split; [done|]. clear Hd.
  revert ty f o r out Hout. induction fuel as [|fuel IH]; intros ty f o r out; [done|].
  destruct ty as [s|items|props|v].
  - cbn [Events.on Events.normalize]. destruct (Events.has_space s).
    + apply for_each_rel;
        [apply listeners_kept_refl | apply listeners_kept_trans |].
      intros x r' out' _. apply IH.
    + intros [= <-]. apply on_one_kept.
  - rewrite on_array. apply for_each_rel;
      [apply listeners_kept_refl | apply listeners_kept_trans |].
    intros x r' out' _. apply IH.
  - rewrite on_object. apply for_each_rel;
      [apply listeners_kept_refl | apply listeners_kept_trans |].
    intros x r' out' _. apply IH.
  - cbn [Events.on Events.normalize]. intros [= <-]. split; [|by eexists].
    intros t' ls' Hl'. exists []. by rewrite app_nil_r.
Qed.

Lemma listeners_thinned_refl (r : Reg) : listeners_thinned r r.
Proof.
  split.
  - intros t. destruct (Events.globalEvents r !! t) as [ls|] eqn:Hl; [|done].
    by exists ls.
  - exists []. by rewrite app_nil_r.
Qed.

Lemma listeners_thinned_trans (r1 r2 r3 : Reg) :
  listeners_thinned r1 r2 -> listeners_thinned r2 r3 -> listeners_thinned r1 r3.
Proof.
  intros [H1 [c1 Hc1]] [H2 [c2 Hc2]]. split.
  - intros t. specialize (H1 t). specialize (H2 t).
    destruct (Events.globalEvents r1 !! t) as [ls|].
    + destruct H1 as (l2 & Hl2 & Hs2). rewrite Hl2 in H2.
      destruct H2 as (l3 & Hl3 & Hs3). exists l3. split; [done|].
      by etrans.
    + by rewrite H1 in H2.
  - exists (c1 ++ c2). by rewrite Hc2, Hc1, app_assoc.
Qed.

Lemma off_one_thinned t (f o : JSVal) (r : Reg) :
  listeners_thinned r (Events.registry_of (off_one t f o r)).
Proof.
  unfold Events.off_one. destruct (includes t eventTypes); cbn [negb].
  - destruct (Events.globalEvents r !! t) as [ls|] eqn:Hl.
    + cbn zeta. destruct (decide (indexOf f ls ≠ -1)); [|apply listeners_thinned_refl].
      split; [|exists []; by rewrite app_nil_r].
      intros t'. simpl. destruct (decide (t = t')) as [<-|Hne].
      * rewrite Hl, lookup_insert_eq. eexists. split; [done|]. apply sublist_delete.
      * rewrite lookup_insert_ne by done.
        destruct (Events.globalEvents r !! t') as [ls'|]; [|done]. by exists ls'.
    + destruct (inherited t); apply listeners_thinned_refl.
  - split; [|by eexists].
    intros t'. simpl. destruct (Events.globalEvents r !! t') as [ls'|]; [|done].
    by exists ls'.
Qed.

(** X14: a call of [off], whatever its [type] argument, returns or throws,
    and never adds a listener: the types that have an array in
    [globalEvents] stay the same, and each array holds a part of what it
    held, in the same order. *)
Theorem off_adds_nothing (fuel : nat) (ty : Events.TypeArg JSVal) (f o : JSVal)
    (r : Reg) :
  (type_depth ty <= fuel)%nat ->
  exists out, off fuel ty f o r = Some out /\
              listeners_thinned r (Events.registry_of out).
Proof.
  intros Hd. destruct (off_returns fuel ty f o r Hd) as [out Hout].
  exists out. split; [done|]. clear Hd.
  revert ty f o r out Hout. induction fuel as [|fuel IH]; intros ty f o r out; [done|].
  destruct ty as [s|items|props|v].
  - cbn [Events.off Events.normalize]. destruct (Events.has_space s).
    + apply for_each_rel;
        [apply listeners_thinned_refl | apply listeners_thinned_trans |].
      intros x r' out' _. apply IH.
    + intros [= <-]. apply off_one_thinned.
  - rewrite off_array. apply for_each_rel;
      [apply listeners_thinned_refl | apply listeners_thinned_trans |].
    intros x r' out' _. apply IH.
  - rewrite off_object. apply for_each_rel;
      [apply listeners_thinned_refl | apply listeners_thinned_trans |].
    intros x r' out' _. apply IH.
  - cbn [Events.off Events.normalize]. intros [= <-]. split; [|by eexists].
    intros t'. simpl. destruct (Events.globalEvents r !! t') as [ls'|]; [|done].
    by exists ls'.
Qed.
End OnOffFacts.

(** * [interact.stop] *)

Lemma arr_remove_middle {A} `{EqDecision A} (x : A) front rest :
  x ∉ front -> arr_remove x (front ++ x :: rest) = front ++ rest.
Proof.
  induction front as [|y front IH]; simpl.
  - intros _. by rewrite decide_True.
  - rewrite not_elem_of_cons. intros [Hne Hn].
    rewrite decide_False by done. by rewrite IH.
Qed.

Section FacadeStopFacts.
Variable stop_method : ref -> World -> World.

Lemma stop_loop_all fuel rest : forall front w calls,
  (forall j w, interactions_list (scope (stop_method j w)) = interactions_list (scope w)) ->
  interactions_list (scope w) = front ++ rest ->
  (length rest <= fuel)%nat ->
  stop_loop stop_method fuel (length front) w calls =
    Some (foldl (fun w j => stop_method j w) w rest, calls ++ rest).
Proof.
  revert fuel. induction rest as [|a rest IH]; intros fuel front w calls Hkeep Hl Hf.
  - rewrite app_nil_r in *. destruct fuel; simpl;
      rewrite Hl, lookup_ge_None_2 by lia; done.
  - destruct fuel as [|fuel]; [simpl in Hf; lia|]. simpl.
    rewrite Hl, list_lookup_middle by done.
    replace (S (length front)) with (length (front ++ [a]))
      by (rewrite length_app; simpl; lia).
    rewrite IH; try done.
    + by rewrite <- app_assoc.
    + by rewrite Hkeep, Hl, <- app_assoc.
    + simpl in Hf. lia.
Qed.

(** X15: when the method [stop()] of the interactions leaves
    [scope.interactions.list] as it is, [interact.stop()] calls it on
    every interaction of the list, once each and in the order of the
    list. *)
Theorem stop_visits_all (w : World) :
  (forall j w, interactions_list (scope (stop_method j w)) = interactions_list (scope w)) ->
  stop stop_method (length (interactions_list (scope w))) w =
    Some (foldl (fun w j => stop_method j w) w (interactions_list (scope w)),
          interactions_list (scope w)).
Proof.
  intros Hkeep. unfold stop.
  by rewrite (stop_loop_all _ (interactions_list (scope w)) [] w []).
Qed.

Lemma stop_loop_alternates fuel : forall rest front w calls,
  (forall j w, interactions_list (scope (stop_method j w)) =
               arr_remove j (interactions_list (scope w))) ->
  interactions_list (scope w) = front ++ rest ->
  NoDup (front ++ rest) ->
  (length rest <= fuel)%nat ->
  exists w',
    stop_loop stop_method fuel (length front) w calls = Some (w', calls ++ evens rest) /\
    w' = foldl (fun w j => stop_method j w) w (evens rest) /\
    interactions_list (scope w') = front ++ odds rest.
Proof.
  induction fuel as [|fuel IH]; intros rest front w calls Hrem Hl Hnd Hf.
  - destruct rest; [|simpl in Hf; lia]. rewrite app_nil_r in *.
    exists w. simpl. rewrite Hl, lookup_ge_None_2 by lia. by rewrite !app_nil_r.
  - destruct rest as [|a rest].
    { rewrite app_nil_r in *. exists w. simpl.
      rewrite Hl, lookup_ge_None_2 by lia. by rewrite !app_nil_r. }
    simpl stop_loop. rewrite Hl, list_lookup_middle by done.
    assert (a ∉ front) as Ha.
    { apply NoDup_app in Hnd as (_ & Hdis & _). intros Hin.
      apply (Hdis a Hin). left. }
    assert (interactions_list (scope (stop_method a w)) = front ++ rest) as Hl1.
    { by rewrite Hrem, Hl, arr_remove_middle. }
    destruct rest as [|b rest].
    + exists (stop_method a w). rewrite app_nil_r in *.
      destruct fuel; simpl; rewrite Hl1, lookup_ge_None_2 by lia; done.
    + replace (S (length front)) with (length (front ++ [b]))
        by (rewrite length_app; simpl; lia).
      destruct (IH rest (front ++ [b]) (stop_method a w) (calls ++ [a]))
        as (w' & Hloop & Hw' & Hl'); try done.
      * by rewrite <- app_assoc.
      * rewrite <- app_assoc. simpl.
        apply NoDup_app in Hnd as (Hf1 & Hdis & Hr).
        apply NoDup_cons in Hr as [_ Hr].
        apply NoDup_app. split; [done|]. split; [|done].
        intros x Hx Hx'. apply (Hdis x Hx). by right.
      * simpl in Hf. lia.
      * exists w'. rewrite Hloop. split; [by rewrite <- app_assoc|].
        split; [done|]. by rewrite Hl', <- app_assoc.
Qed.

(** X16: when the method [stop()] takes the interaction out of
    [scope.interactions.list], the loop of [interact.stop()] passes over
    the entry that follows each interaction it stops: of a list without
    repetitions it calls [stop()] on the entries at the places 0, 2, 4, ...
    and leaves the entries at the places 1, 3, 5, ... in the list. *)
Theorem stop_passes_over (w : World) :
  (forall j w, interactions_list (scope (stop_method j w)) =
               arr_remove j (interactions_list (scope w))) ->
  NoDup (interactions_list (scope w)) ->
  exists w',
    stop stop_method (length (interactions_list (scope w))) w =
      Some (w', evens (interactions_list (scope w))) /\
    w' = foldl (fun w j => stop_method j w) w (evens (interactions_list (scope w))) /\
    interactions_list (scope w') = odds (interactions_list (scope w)).
Proof.
  intros Hrem Hnd. unfold stop.
  destruct (stop_loop_alternates (length (interactions_list (scope w)))
              (interactions_list (scope w)) [] w [] Hrem eq_refl Hnd)
    as (w' & Hloop & Hw' & Hl'); [lia|].
  cbn [length app] in Hloop, Hl'. exists w'. by rewrite Hloop.
Qed.
End FacadeStopFacts.

(** * The further properties at concrete inputs *)

Lemma facade_inv_loaded : facade_inv Scenario.loaded.
Proof.
  split; [apply NoDup_nil_2|]. split; [by constructor|].
  intros r1 r2 a1 a2 Hr1. by apply elem_of_nil in Hr1.
Qed.

Lemma interact_distinct_keys_witness :
  let o1 := Some (mkOptions (Some 1%nat)) in
  let o2 := Some (mkOptions (Some 2%nat)) in
  (Selector "repeat" <> Selector "repeat" \/
   options_context o1 <> options_context o2) /\
  (interact (Selector "repeat") o2
     (interact (Selector "repeat") o1 Scenario.loaded).1).2 <>
  (interact (Selector "repeat") o1 Scenario.loaded).2.
Proof.
  assert (Some 1%nat <> Some 2%nat) as Hne by discriminate.
  split; [right; exact Hne|].
  apply (interact_distinct_keys (Selector "repeat") (Selector "repeat")
           (Some (mkOptions (Some 1%nat))) (Some (mkOptions (Some 2%nat)))
           Scenario.loaded).
  right. exact Hne.
Defined.

Lemma interact_keeps_facade_inv_witness :
  facade_inv Scenario.loaded /\
  facade_inv
    (interact_all [(Selector "a", None); (Element 4%nat, None); (Selector "a", None)]
       Scenario.loaded).
Proof.
  split; [exact facade_inv_loaded|].
  apply interact_keeps_facade_inv. exact facade_inv_loaded.
Defined.

Lemma interact_stable_witness :
  let w1 :=
    interact_all [(Selector "b", None); (Element 4%nat, None)]
      (interact (Selector "a") None Scenario.loaded).1 in
  facade_inv Scenario.loaded /\
  interact (Selector "a") None w1 =
    (w1, (interact (Selector "a") None Scenario.loaded).2).
Proof.
  split; [exact facade_inv_loaded|].
  apply (interact_stable (Selector "a") None Scenario.loaded
           [(Selector "b", None); (Element 4%nat, None)]).
  exact facade_inv_loaded.
Defined.

Lemma unset_keeps_facade_inv_witness :
  let w1 := (interact (Selector "a") None Scenario.loaded).1 in
  facade_inv w1 /\
  exists w', on_unset true 0%nat w1 = Some w' /\ facade_inv w'.
Proof.
  assert (facade_inv (interact (Selector "a") None Scenario.loaded).1) as Hinv
    by (apply interact_inv; exact facade_inv_loaded).
  split; [exact Hinv|].
  apply (unset_keeps_facade_inv true 0%nat _ Hinv).
Defined.

Lemma unset_unregisters_witness :
  let w1 := (interact (Selector "a") None Scenario.loaded).1 in
  facade_inv w1 /\
  0%nat ∈ interactables_list (scope w1) /\
  matches (Selector "a") (options_context None) w1 0%nat = true /\
  exists w',
    on_unset true 0%nat w1 = Some w' /\
    interactables_get (Selector "a") None w' = None.
Proof.
  assert (facade_inv (interact (Selector "a") None Scenario.loaded).1) as Hinv
    by (apply interact_inv; exact facade_inv_loaded).
  assert (0%nat ∈ [0%nat]) as Hin by in_list.
  split; [exact Hinv|]. split; [exact Hin|]. split; [reflexivity|].
  destruct (unset_unregisters true (Selector "a") None 0%nat
              (interact (Selector "a") None Scenario.loaded).1 Hinv Hin eq_refl)
    as (w' & Hun & _ & Hset & _).
  exists w'. split; [exact Hun | exact Hset].
Defined.

Lemma unset_absent_removes_last_witness :
  let w := Scenario.busy [] in
  (7%nat ∉ interactables_list (scope w)) /\
  interactables_list (scope w) <> [] /\
  exists w',
    on_unset true 7%nat w = Some w' /\
    S (length (interactables_list (scope w'))) = length (interactables_list (scope w)).
Proof.
  assert (7%nat ∉ [0%nat]) as Hn.
  { intros H. apply list_elem_of_singleton in H. discriminate. }
  assert ([0%nat] <> []) as Hne by discriminate.
  split; [exact Hn|]. split; [exact Hne|].
  destruct (unset_absent_removes_last true 7%nat (Scenario.busy []) Hn)
    as (w' & Hun & _ & Hlen).
  exists w'. split; [exact Hun | exact (Hlen Hne)].
Defined.

Lemma use_all_first_uses_witness :
  let inst := fun (_ : ref) (s : Scope) => s in
  (forall p s, _plugins (inst p s) = _plugins s) /\
  _plugins (scope (use_all inst [3; 5; 3; 7; 5]%nat Scenario.loaded)) = [3; 5; 7]%nat.
Proof.
  split; [intros p s; reflexivity|].
  destruct (use_all_first_uses (fun _ s => s) [3; 5; 3; 7; 5]%nat Scenario.loaded)
    as (Hord & _); [intros p s; reflexivity|].
  rewrite Hord. reflexivity.
Defined.

Lemma on_off_names_witness :
  let ts := ["dragstart"; "dragend"] in
  Forall Events.type_name ts /\ ts <> [] /\
  Events.on EventScenario.eventTypes EventScenario.inherited 2
    (Events.TString "dragstart dragend") 7%nat 0%nat EventScenario.fresh =
  Events.on EventScenario.eventTypes EventScenario.inherited 2
    (Events.TArray [Events.TString "dragstart"; Events.TString "dragend"])
    7%nat 0%nat EventScenario.fresh.
Proof.
  assert (Forall Events.type_name ["dragstart"; "dragend"]) as Hall.
  { constructor; [name_ok|]. constructor; [name_ok|]. constructor. }
  assert (["dragstart"; "dragend"] <> []) as Hne by discriminate.
  split; [exact Hall|]. split; [exact Hne|].
  destruct (on_off_names EventScenario.eventTypes EventScenario.inherited
              ["dragstart"; "dragend"] 7%nat 0%nat EventScenario.fresh 0 Hall Hne)
    as (H1 & H2 & _).
  exact (eq_trans H1 (eq_sym H2)).
Defined.

Lemma on_off_round_trip_witness :
  Events.has_space "dragstart" = false /\
  "dragstart" ∈ EventScenario.eventTypes /\
  EventScenario.inherited "dragstart" = false /\
  exists r1 r2,
    Events.on EventScenario.eventTypes EventScenario.inherited 1
      (Events.TString "dragstart") 7%nat 0%nat EventScenario.fresh =
      Some (Events.Returned r1) /\
    Events.off EventScenario.eventTypes EventScenario.inherited 1
      (Events.TString "dragstart") 7%nat 0%nat r1 = Some (Events.Returned r2) /\
    Events.globalEvents r2 !! "dragstart" = Some [].
Proof.
  assert ("dragstart" ∈ EventScenario.eventTypes) as Hin by in_list.
  split; [reflexivity|]. split; [exact Hin|]. split; [reflexivity|].
  destruct (on_off_round_trip EventScenario.eventTypes EventScenario.inherited
              "dragstart" 7%nat 0%nat 0%nat EventScenario.fresh 0 0
              eq_refl Hin (fun _ => eq_refl))
    as (r1 & r2 & Hon & Hoff & _ & _ & Hback & _).
  exists r1, r2. split; [exact Hon|]. split; [exact Hoff|].
  apply Hback. apply not_elem_of_nil.
Defined.

Lemma off_unregistered_witness :
  Events.has_space "dragend" = false /\
  "dragend" ∈ EventScenario.eventTypes /\
  EventScenario.inherited "dragend" = false /\
  (7%nat ∉ Events.listeners "dragend" EventScenario.fresh) /\
  Events.off EventScenario.eventTypes EventScenario.inherited 1
    (Events.TString "dragend") 7%nat 0%nat EventScenario.fresh =
    Some (Events.Returned EventScenario.fresh).
Proof.
  assert ("dragend" ∈ EventScenario.eventTypes) as Hin by in_list.
  assert (7%nat ∉ Events.listeners "dragend" EventScenario.fresh) as Hn
    by apply not_elem_of_nil.
  split; [reflexivity|]. split; [exact Hin|]. split; [reflexivity|].
  split; [exact Hn|].
  apply (off_unregistered EventScenario.eventTypes EventScenario.inherited
           "dragend" 7%nat 0%nat EventScenario.fresh 0 eq_refl Hin
           (fun _ => eq_refl) Hn).
Defined.

Lemma on_off_inherited_throws_witness :
  let r1 := Events.set_listeners "dragstart" [7%nat] EventScenario.fresh in
  Events.has_space "constructor" = false /\
  "constructor" ∈ EventScenario.eventTypes /\
  EventScenario.inherited "constructor" = true /\
  Events.each_type
    (fun t1 => Events.on_one EventScenario.eventTypes EventScenario.inherited t1 7%nat 0%nat)
    ["dragstart"] EventScenario.fresh = Events.Returned r1 /\
  Events.globalEvents r1 !! "constructor" = None /\
  Events.on EventScenario.eventTypes EventScenario.inherited 2
    (Events.TArray
       (map Events.TString (["dragstart"] ++ "constructor" :: ["dragend"])))
    7%nat 0%nat EventScenario.fresh = Some (Events.Thrown r1).
Proof.
  assert ("constructor" ∈ EventScenario.eventTypes) as Hin by in_list.
  split; [reflexivity|]. split; [exact Hin|]. split; [reflexivity|].
  split; [reflexivity|]. split; [reflexivity|].
  apply (on_off_inherited_throws EventScenario.eventTypes EventScenario.inherited
           "constructor" ["dragstart"] ["dragend"] 7%nat 0%nat EventScenario.fresh
           (Events.set_listeners "dragstart" [7%nat] EventScenario.fresh) 1
           eq_refl Hin eq_refl).
  - intros t1 Ht1. apply list_elem_of_singleton in Ht1. subst t1. reflexivity.
  - reflexivity.
  - reflexivity.
Defined.

Lemma on_off_object_dom_witness :
  let props := [("click", 7%nat); ("keydown", 8%nat)] in
  Forall (fun p : string * nat =>
            Events.has_space p.1 = false /\ p.1 ∉ EventScenario.eventTypes) props /\
  Events.on EventScenario.eventTypes EventScenario.inherited 2
    (Events.TObject props) 9%nat 0%nat EventScenario.fresh =
    Some (Events.Returned
            (Events.mkRegistry ∅
               [Events.EventsAdd (Events.DString "click") 7%nat 9%nat;
                Events.EventsAdd (Events.DString "keydown") 8%nat 9%nat])).
Proof.
  assert (forall s, s ∈ ["click"; "keydown"] -> s ∉ EventScenario.eventTypes) as Hn.
  { intros s Hs Hin. apply list_elem_of_In in Hs, Hin. simpl in Hs, Hin.
    destruct Hs as [<-|[<-|[]]];
      repeat (destruct Hin as [Hin|Hin]; [discriminate|]); destruct Hin. }
  assert (Forall (fun p : string * nat =>
                    Events.has_space p.1 = false /\ p.1 ∉ EventScenario.eventTypes)
            [("click", 7%nat); ("keydown", 8%nat)]) as Hall.
  { repeat constructor; apply Hn; in_list. }
  split; [exact Hall|].
  apply (proj1 (on_off_object_dom EventScenario.eventTypes EventScenario.inherited
                  [("click", 7%nat); ("keydown", 8%nat)] 9%nat 0%nat
                  EventScenario.fresh 0 Hall)).
Defined.

Lemma on_keeps_listeners_witness :
  let ty :=
    Events.TArray
      [Events.TString "dragstart click"; Events.TObject [("dragend", 8%nat)]] in
  (type_depth ty <= 4)%nat /\
  exists out,
    Events.on EventScenario.eventTypes EventScenario.inherited 4 ty 7%nat 0%nat
      EventScenario.fresh = Some out /\
    listeners_kept EventScenario.fresh (Events.registry_of out).
Proof.
  assert (type_depth
            (Events.TArray
               [Events.TString "dragstart click";
                Events.TObject [("dragend", 8%nat)]]) <= 4)%nat as Hd
    by (simpl; lia).
  split; [exact Hd|].
  apply (on_keeps_listeners EventScenario.eventTypes EventScenario.inherited 4
           _ 7%nat 0%nat EventScenario.fresh Hd).
Defined.

Lemma off_adds_nothing_witness :
  let ty :=
    Events.TArray
      [Events.TString "dragstart click"; Events.TObject [("dragend", 8%nat)]] in
  (type_depth ty <= 4)%nat /\
  exists out,
    Events.off EventScenario.eventTypes EventScenario.inherited 4 ty 7%nat 0%nat
      EventScenario.fresh = Some out /\
    listeners_thinned EventScenario.fresh (Events.registry_of out).
Proof.
  assert (type_depth
            (Events.TArray
               [Events.TString "dragstart click";
                Events.TObject [("dragend", 8%nat)]]) <= 4)%nat as Hd
    by (simpl; lia).
  split; [exact Hd|].
  apply (off_adds_nothing EventScenario.eventTypes EventScenario.inherited 4
           _ 7%nat 0%nat EventScenario.fresh Hd).
Defined.

Lemma stop_visits_all_witness :
  let w := Scenario.busy [Scenario.dragging false; Scenario.dragging false] in
  (forall j w', interactions_list (scope (EventScenario.trace_stop j w')) =
                interactions_list (scope w')) /\
  (snd <$> stop EventScenario.trace_stop 2 w) = Some [0%nat; 1%nat].
Proof.
  split; [intros j w'; reflexivity|].
  pose proof (stop_visits_all EventScenario.trace_stop
                (Scenario.busy [Scenario.dragging false; Scenario.dragging false])
                (fun _ _ => eq_refl)) as H.
  simpl length in H. rewrite H. reflexivity.
Defined.

Lemma finalize_list j w :
  interactions_list (scope (finalize false j w)) =
  arr_remove j (interactions_list (scope w)).
Proof. destruct (finalize_frame false j w) as (l & _ & ->). reflexivity. Qed.

Lemma stop_passes_over_witness :
  let w :=
    Scenario.busy [Scenario.dragging false; Scenario.dragging false;
                   Scenario.dragging false] in
  (forall j w', interactions_list (scope (finalize false j w')) =
                arr_remove j (interactions_list (scope w'))) /\
  NoDup (interactions_list (scope w)) /\
  exists w',
    stop (finalize false) 3 w = Some (w', [0%nat; 2%nat]) /\
    interactions_list (scope w') = [1%nat].
Proof.
  assert (NoDup [0%nat; 1%nat; 2%nat]) as Hnd by apply (NoDup_seq 0 3).
  split; [exact finalize_list|]. split; [exact Hnd|].
  destruct (stop_passes_over (finalize false)
              (Scenario.busy [Scenario.dragging false; Scenario.dragging false;
                              Scenario.dragging false]) finalize_list Hnd)
    as (w' & Hstop & _ & Hl).
  exists w'. split; [exact Hstop | exact Hl].
Defined.
